(** * Isolated stars: a shallow embedding of [stars.py]

    The program reads a list of coordinate tuples, builds a complete
    graph over them one node at a time, and flags as non-isolated the
    nodes it finds closer than a threshold.  The embedding follows the
    source function by function: [Node], [WeightedEdge], [Graph] with
    [add_node] and [add_edge], [calculate_dist], [load_graph] and
    [isolated].

    Modelling choices, all read off the source:
    - a coordinate is a finite Python number (an [int] or a [float]),
      kept by its exact rational value in [Q]; Python compares and hashes
      numbers by value, so [(1, 2)] and [(1.0, 2.0)] are the same key;
    - [int(c)] truncates toward zero ([Z.quot]);
    - [math.sqrt] works on binary64 floats: the integer argument is first
      converted (round to nearest even, [OverflowError] when it does not
      fit), then the IEEE square root is taken; floats are [spec_float]
      with [prec = 53] and [emax = 1024];
    - [Node] objects are mutable and shared between the node set, the edge
      dictionary and the edges: the set is kept as the list of its member
      objects in insertion order, and a member is referred to by its
      position in that list, so a [change_iso] through any alias updates
      the one object;
    - the iteration order of a Python [set] is fixed by the hashes of its
      members and is not specified by the language: it is a parameter
      [set_order] of the development, assumed only to enumerate every
      member once. *)

From Stdlib Require Import ZArith QArith Floats.SpecFloat.
From stdpp Require Import base list sorting gmap.

Local Open Scope Z_scope.

(** ** Errors and results *)

Inductive error :=
| DuplicateNode          (* ValueError('Duplicate node') *)
| SourceNotInGraph       (* ValueError("Source node not in graph") *)
| DestinationNotInGraph  (* ValueError("Destination node not in graph") *)
| OverflowError          (* math.sqrt: int too large to convert to float *)
| MathDomainError        (* math.sqrt of a negative number *)
| KeyError.              (* self.edges[source] on a missing key *)

Inductive result (A : Type) :=
| Ok (a : A)
| Err (e : error).
Arguments Ok {A} a.
Arguments Err {A} e.

#[global] Instance result_ret : MRet result := fun A a => Ok a.
#[global] Instance result_bind : MBind result := fun A B f m =>
  match m with
  | Ok a => f a
  | Err e => Err e
  end.

Definition raises {A} (m : result A) : Prop := exists e, m = Err e.

(** ** Numbers *)

Definition float := spec_float.

Definition prec : Z := 53.
Definition emax : Z := 1024.

(** A Python number as the threshold may be given: an int or a float. *)
Inductive number :=
| PyInt (z : Z)
| PyFloat (f : float).

(** [int(c)] on a finite number: truncation toward zero. *)
Definition int (c : Q) : Z := Z.quot (Qnum c) (Z.pos (Qden c)).

(** Conversion of a Python int to a float, as [math.sqrt] does it. *)
Definition float_of_int (n : Z) : result float :=
  match binary_normalize prec emax n 0 false with
  | S754_infinity _ => Err OverflowError
  | f => Ok f
  end.

Definition math_sqrt (n : Z) : result float :=
  if n <? 0 then Err MathDomainError
  else f ← float_of_int n; Ok (SFsqrt prec emax f).

(** [f < z] for a float and an int: Python compares the exact values. *)
Definition float_lt_int (f : float) (z : Z) : bool :=
  match f with
  | S754_nan => false
  | S754_infinity s => s
  | S754_zero _ => 0 <? z
  | S754_finite s m e =>
      let v := cond_Zopp s (Z.pos m) in
      if 0 <=? e then v * 2 ^ e <? z else v <? z * 2 ^ (- e)
  end.

(** [f == z] for a float and an int, again on the exact values. *)
Definition float_eq_int (f : float) (z : Z) : bool :=
  match f with
  | S754_nan | S754_infinity _ => false
  | S754_zero _ => 0 =? z
  | S754_finite s m e =>
      let v := cond_Zopp s (Z.pos m) in
      if 0 <=? e then v * 2 ^ e =? z else v =? z * 2 ^ (- e)
  end.

(** [distance < iso_distance] *)
Definition float_lt (f : float) (t : number) : bool :=
  match t with
  | PyInt z => float_lt_int f z
  | PyFloat g => SFltb f g
  end.

(** [iso_distance == distance] *)
Definition number_eq_float (t : number) (f : float) : bool :=
  match t with
  | PyInt z => float_eq_int f z
  | PyFloat g => SFeqb g f
  end.

(** ** Node *)

Definition tuple : Type := Q * Q.

Definition tuple_eqb (a b : tuple) : bool :=
  Qeq_bool a.1 b.1 && Qeq_bool a.2 b.2.

Record Node := mkNode { name : tuple; index : nat; is_iso : bool }.

(** [Node(name, index)]: [is_iso] takes its default, [True]. *)
Definition Node_init (name : tuple) (index : nat) : Node :=
  mkNode name index true.

Definition get_name (self : Node) : tuple := name self.
Definition get_index (self : Node) : nat := index self.
Definition get_iso (self : Node) : bool := is_iso self.

Definition change_iso (self : Node) : Node :=
  mkNode (name self) (index self) false.

(** [__eq__] and [__ne__]: nodes are compared by name only. *)
Definition Node_eq (self other : Node) : bool :=
  tuple_eqb (name self) (name other).
Definition Node_ne (self other : Node) : bool := negb (Node_eq self other).

(** ** WeightedEdge

    The endpoints are references to nodes of the graph. *)

Record WeightedEdge := mkEdge { src : nat; dest : nat; dist : float }.

Definition get_src (self : WeightedEdge) : nat := src self.
Definition get_dest (self : WeightedEdge) : nat := dest self.
Definition get_dist (self : WeightedEdge) : float := dist self.

(** ** Graph *)

Record Graph := mkGraph {
  nodes : list Node;
  edges : gmap nat (list WeightedEdge)
}.

Definition Graph_init : Graph := mkGraph [] ∅.

(** [node in self.nodes] for a node object *)
Definition has_node (self : Graph) (node : Node) : bool :=
  existsb (Node_eq node) (nodes self).

(** [node in self.nodes] through a reference; a reference to no member of
    the set is an object that is not in it. *)
Definition in_nodes (self : Graph) (r : nat) : bool :=
  match nodes self !! r with
  | Some node => has_node self node
  | None => false
  end.

(** [add_node(node, index)]: [load_graph] always passes a [Node], so the
    branch that would build one from [index] is not taken. *)
Definition add_node (self : Graph) (node : Node) : result Graph :=
  if has_node self node then Err DuplicateNode
  else Ok (mkGraph (nodes self ++ [node])
                   (<[length (nodes self) := []]> (edges self))).

Definition add_edge (self : Graph) (edge : WeightedEdge) : result Graph :=
  let source := get_src edge in
  let destination := get_dest edge in
  let total_distance := get_dist edge in
  if negb (in_nodes self source) then Err SourceNotInGraph
  else if negb (in_nodes self destination) then Err DestinationNotInGraph
  else
    match edges self !! source with
    | Some es =>
        Ok (mkGraph (nodes self)
              (<[source := es ++ [mkEdge source destination total_distance]]>
                 (edges self)))
    | None => Err KeyError
    end.

(** [node.change_iso()] on the member of the set that [r] refers to *)
Definition change_iso_at (r : nat) (self : Graph) : Graph :=
  mkGraph (alter change_iso r (nodes self)) (edges self).

(** [get_edges(node)]: [self.edges[node]], a [KeyError] when the node is
    not a key of the dictionary. *)
Definition get_edges (self : Graph) (node : nat)
    : result (list WeightedEdge) :=
  match edges self !! node with
  | Some es => Ok es
  | None => Err KeyError
  end.

(** ** calculate_dist *)

Definition calculate_dist (node_a node_b : Node) : result float :=
  let node_a := get_name node_a in
  let node_b := get_name node_b in
  let '(x1, y1) := (int node_a.1, int node_a.2) in
  let '(x2, y2) := (int node_b.1, int node_b.2) in
  math_sqrt ((x1 - x2) ^ 2 + (y1 - y2) ^ 2).

(** ** load_graph and isolated *)

Section Stars.

(** The order in which a set holding the given names (listed in
    insertion order) is iterated, as positions in that list. *)
Variable set_order : list tuple -> list nat.

Definition iter_nodes (graph : Graph) : list nat :=
  set_order (name <$> nodes graph).

(** One pass of the body of [for old_node in graph.nodes].  Both
    references come from the set itself, so the two lookups succeed; the
    last branch is there only to make the function total. *)
Definition visit (iso_distance : number) (new_node : nat)
    (graph : Graph) (old_node : nat) : result Graph :=
  match nodes graph !! old_node, nodes graph !! new_node with
  | Some old, Some new =>
      if Node_ne old new then
        let source := new_node in
        let destination := old_node in
        distance ← calculate_dist new old;
        graph ← add_edge graph (mkEdge source destination distance);
        match nodes graph !! new_node with
        | Some new =>
            if get_iso new then
              if float_lt distance iso_distance then
                Ok (change_iso_at old_node (change_iso_at new_node graph))
              else Ok graph
            else Ok graph
        | None => Ok graph
        end
      else Ok graph
  | _, _ => Ok graph
  end.

Fixpoint for_old_nodes (iso_distance : number) (new_node : nat)
    (olds : list nat) (graph : Graph) : result Graph :=
  match olds with
  | [] => Ok graph
  | old_node :: olds =>
      graph ← visit iso_distance new_node graph old_node;
      for_old_nodes iso_distance new_node olds graph
  end.

(** The body of [for index, tuple in enumerate(list)]. *)
Definition load_step (iso_distance : number) (graph : Graph)
    (index : nat) (tuple : tuple) : result Graph :=
  let new_node := Node_init tuple index in
  graph ← add_node graph new_node;
  (* [new_node] is now the last member of the set *)
  let new_ref := pred (length (nodes graph)) in
  for_old_nodes iso_distance new_ref (iter_nodes graph) graph.

Fixpoint load_from (iso_distance : number) (index : nat)
    (list : list tuple) (graph : Graph) : result Graph :=
  match list with
  | [] => Ok graph
  | tuple :: list =>
      graph ← load_step iso_distance graph index tuple;
      load_from iso_distance (S index) list graph
  end.

Definition load_graph (list : list tuple) (iso_distance : number)
    : result Graph :=
  load_from iso_distance 0%nat list Graph_init.

(** The loop of [isolated] over [isolated_graph.nodes]. *)
Definition collect (graph : Graph) (order : list nat) : list nat :=
  foldl (fun isolated_stars r =>
           match nodes graph !! r with
           | Some node =>
               if get_iso node then isolated_stars ++ [index node]
               else isolated_stars
           | None => isolated_stars
           end) [] order.

Definition isolated (star_list : list tuple) (dist_min : number)
    : result (list nat) :=
  isolated_graph ← load_graph star_list dist_min;
  Ok (collect isolated_graph (iter_nodes isolated_graph)).

End Stars.

(** Two concrete iteration orders, used to run the program. *)
Definition insertion_order (l : list tuple) : list nat := seq 0 (length l).
Definition reverse_order (l : list tuple) : list nat := rev (seq 0 (length l)).

(** ** Notions used to state the properties *)

(** The integer under the square root, from the two names. *)
Definition sqdist (a b : tuple) : Z :=
  (int a.1 - int b.1) ^ 2 + (int a.2 - int b.2) ^ 2.

Definition dist_of (a b : tuple) : result float := math_sqrt (sqdist a b).

(** Truncation toward zero, as the words of the contract put it: the
    integer lies between zero and the number, less than one away. *)
Definition truncates (c : Q) (z : Z) : Prop :=
  (0 <= c -> inject_Z z <= c /\ c < inject_Z z + 1)%Q /\
  (c <= 0 -> inject_Z z - 1 < c /\ c <= inject_Z z)%Q.

Local Close Scope Z_scope.

Definition names (g : Graph) : list tuple := name <$> nodes g.

(** Every member of the node set is a key of the edge dictionary. *)
Definition keyed (g : Graph) : Prop :=
  forall r, r < length (nodes g) -> is_Some (edges g !! r).

(** What may happen to a node object over time: its name and index stay,
    its flag may only go from [true] to [false]. *)
Definition fade (n n' : Node) : Prop :=
  name n' = name n /\ index n' = index n /\
  (is_iso n = false -> is_iso n' = false).

(** The flags after [new_node] has met [old_node] at distance [d]. *)
Definition met (t : number) (new old : nat) (d : float) (ns : list Node)
    : list Node :=
  match ns !! new with
  | Some n =>
      if is_iso n && float_lt d t
      then alter change_iso old (alter change_iso new ns)
      else ns
  | None => ns
  end.

(** Two names clash when the later one cannot join a set holding the
    earlier one: it is the same name, or their distance cannot be
    computed. *)
Definition clash (later earlier : tuple) : Prop :=
  tuple_eqb later earlier = true \/ raises (dist_of later earlier).

(** The node objects as [load_graph] creates them. *)
Definition fresh_nodes (index : nat) (l : list tuple) : list Node :=
  imap (fun i tuple => Node_init tuple (index + i)) l.

(** The flag of the member that [r] refers to. *)
Definition iso_at (g : Graph) (r : nat) : bool :=
  match nodes g !! r with
  | Some n => is_iso n
  | None => false
  end.

(** Ascending order of indices. *)
Definition ascending (r : list nat) : Prop := StronglySorted lt r.

(** A point with integer coordinates. *)
Definition pt (x y : Z) : tuple := (inject_Z x, inject_Z y).

(** The input has a coordinate pair equal to an earlier one. *)
Definition has_duplicate (l : list tuple) : Prop :=
  exists i j ti tj,
    i < j /\ l !! i = Some ti /\ l !! j = Some tj /\ tuple_eqb tj ti = true.

(** A flag that is [false] before is [false] after. *)
Definition still_false (g g' : Graph) : Prop :=
  forall r n, nodes g !! r = Some n -> is_iso n = false ->
              exists n', nodes g' !! r = Some n' /\ is_iso n' = false.

(** An order given by its values on the sets of two and of three
    members; smaller sets leave no choice. *)
Definition table_order (o2 o3 : list nat) (l : list tuple) : list nat :=
  match length l with
  | 2 => o2
  | 3 => o3
  | n => seq 0 n
  end.

(** [a] comes before [b] in the order [o]. *)
Definition before (o : list nat) (a b : nat) : Prop :=
  exists i j, o !! i = Some a /\ o !! j = Some b /\ i < j.

(** The float 5.0 *)
Definition five : float := S754_finite false 5629499534213120 (-50).

(** The distance the program computes between nodes named [a] and [b]
    is below the threshold. *)
Definition close (t : number) (a b : tuple) : Prop :=
  exists d, dist_of a b = Ok d /\ float_lt d t = true.

(** A threshold that no distance is below: zero or less, or not a
    number. *)
Definition never_below (t : number) : Prop :=
  match t with
  | PyInt z => (z <= 0)%Z
  | PyFloat (S754_zero _) | PyFloat S754_nan => True
  | PyFloat (S754_infinity s) | PyFloat (S754_finite s _ _) => s = true
  end.

(** [close] as the program decides it. *)
Definition closeb (t : number) (a b : tuple) : bool :=
  match dist_of a b with
  | Ok d => float_lt d t
  | Err _ => false
  end.

(** What the flags of a graph under construction tell, for a threshold
    [t]: a cleared flag has a close point to show for it; a node whose
    flag is set is not close to any node inserted before it; and a node
    that is the only earlier node close to some later one has its flag
    cleared. *)
Definition flags_sound (t : number) (g : Graph) : Prop :=
  forall r tr, names g !! r = Some tr -> iso_at g r = false ->
    exists r' tr', r' <> r /\ names g !! r' = Some tr' /\ close t tr tr'.

Definition flags_earlier (t : number) (g : Graph) : Prop :=
  forall i j ti tj, i < j ->
    names g !! i = Some ti -> names g !! j = Some tj ->
    iso_at g j = true -> ~ close t tj ti.

Definition flags_single (t : number) (g : Graph) : Prop :=
  forall j k tj tk, j < k ->
    names g !! j = Some tj -> names g !! k = Some tk -> close t tk tj ->
    (forall i ti, i < k -> names g !! i = Some ti -> close t tk ti -> i = j) ->
    iso_at g j = false.

(** The names of the set are pairwise different. *)
Definition distinct_names (g : Graph) : Prop :=
  forall i j ti tj, names g !! i = Some ti -> names g !! j = Some tj ->
                    tuple_eqb ti tj = true -> i = j.

Definition flags_inv (t : number) (g : Graph) : Prop :=
  keyed g /\ distinct_names g /\
  flags_sound t g /\ flags_earlier t g /\ flags_single t g.

(** The edges stored for the member at position [j], named [tj], in a
    graph whose set was iterated by [order] when [j] was inserted: one
    edge from [j] to every other member of that time, in that order, each
    carrying the distance between the two. *)
Definition edges_of (names : list tuple) (order : list nat) (j : nat)
    (tj : tuple) (es : list WeightedEdge) : Prop :=
  dest <$> es = filter (fun i => i <> j) order /\
  Forall (fun e => src e = j /\
                   exists ti, names !! dest e = Some ti /\
                              dist_of tj ti = Ok (dist e)) es.

(** Every member of the graph has the edges it was given on insertion. *)
Definition edges_inv (set_order : list tuple -> list nat) (g : Graph)
    : Prop :=
  forall j tj, names g !! j = Some tj ->
    exists es, edges g !! j = Some es /\
      edges_of (names g) (set_order (take (S j) (names g))) j tj es.

(** Coordinates whose integer parts are below 2^25 in absolute value. *)
Definition small (a : tuple) : Prop :=
  (Z.abs (int a.1) < 2 ^ 25 /\ Z.abs (int a.2) < 2 ^ 25)%Z.

(** A graph of two nodes without edges, and inputs to run on. *)
Definition two_nodes : Graph :=
  mkGraph [Node_init (pt 0 0) 0; Node_init (pt 3 4) 1]
          (<[1 := []]> (<[0 := []]> ∅)).

Definition stars3 : list tuple := [pt 0 0; pt 10 10; pt 0 1].

(** * Properties *)

Local Open Scope Z_scope.

(** ** Numbers and names *)

Lemma tuple_eqb_refl (a : tuple) : tuple_eqb a a = true.
Proof.
  unfold tuple_eqb. apply andb_true_intro.
  split; apply Qeq_bool_iff; reflexivity.
Qed.

Lemma tuple_eqb_sym (a b : tuple) : tuple_eqb a b = tuple_eqb b a.
Proof.
  unfold tuple_eqb. f_equal; apply eq_true_iff_eq;
    rewrite !Qeq_bool_iff; split; intros H; symmetry; exact H.
Qed.

Lemma Node_eq_refl (n : Node) : Node_eq n n = true.
Proof. apply tuple_eqb_refl. Qed.

Lemma calculate_dist_names (a b : Node) :
  calculate_dist a b = dist_of (name a) (name b).
Proof. reflexivity. Qed.

Lemma sqdist_nonneg (a b : tuple) : 0 <= sqdist a b.
Proof. unfold sqdist. nia. Qed.

Lemma sqdist_sym (a b : tuple) : sqdist a b = sqdist b a.
Proof. unfold sqdist. ring. Qed.

Lemma math_sqrt_nonneg (n : Z) :
  0 <= n ->
  math_sqrt n = match float_of_int n with
                | Ok f => Ok (SFsqrt prec emax f)
                | Err e => Err e
                end.
Proof.
  intros Hn. unfold math_sqrt.
  destruct (Z.ltb_spec n 0) as [Hlt|_]; [lia|].
  destruct (float_of_int n); reflexivity.
Qed.

Lemma float_of_int_error (n : Z) (e : error) :
  float_of_int n = Err e -> e = OverflowError.
Proof.
  unfold float_of_int.
  destruct (binary_normalize prec emax n 0 false); congruence.
Qed.

Lemma dist_of_error (a b : tuple) (e : error) :
  dist_of a b = Err e -> e = OverflowError.
Proof.
  unfold dist_of. rewrite math_sqrt_nonneg by apply sqdist_nonneg.
  destruct (float_of_int _) eqn:E; [discriminate|].
  intros [= <-]. eapply float_of_int_error, E.
Qed.

Lemma dist_of_sym (a b : tuple) : dist_of a b = dist_of b a.
Proof. unfold dist_of. rewrite sqdist_sym. reflexivity. Qed.

Lemma int_truncates (c : Q) : truncates c (int c).
Proof.
  destruct c as [n d]. unfold truncates, int, Qle, Qlt. simpl.
  pose proof (Z.quot_rem' n (Z.pos d)) as Hqr.
  split; intros Hs; rewrite Z.mul_1_r in Hs.
  - pose proof (Z.rem_bound_pos_pos n (Z.pos d) ltac:(lia) Hs) as Hb.
    generalize dependent (n ÷ Z.pos d).
    generalize dependent (Z.rem n (Z.pos d)). intros. nia.
  - pose proof (Z.rem_bound_pos_neg n (Z.pos d) ltac:(lia) Hs) as Hb.
    generalize dependent (n ÷ Z.pos d).
    generalize dependent (Z.rem n (Z.pos d)). intros. nia.
Qed.

Local Close Scope Z_scope.

(** ** The graph: membership, edges, flags *)

Lemma fade_refl (n : Node) : fade n n.
Proof. repeat split; auto. Qed.

Lemma fade_trans (n1 n2 n3 : Node) : fade n1 n2 -> fade n2 n3 -> fade n1 n3.
Proof.
  intros (Hn & Hi & Hf) (Hn' & Hi' & Hf').
  repeat split; [congruence | congruence | auto].
Qed.

Lemma fade_change_iso (n : Node) : fade n (change_iso n).
Proof. repeat split; auto. Qed.

Create HintDb stars.
#[local] Hint Resolve fade_refl fade_change_iso : stars.

Lemma fades_refl (ns : list Node) : Forall2 fade ns ns.
Proof. induction ns; constructor; auto with stars. Qed.

Lemma fades_trans (ns1 ns2 ns3 : list Node) :
  Forall2 fade ns1 ns2 -> Forall2 fade ns2 ns3 -> Forall2 fade ns1 ns3.
Proof.
  intros H12. revert ns3.
  induction H12 as [|a b l k Hab _ IH]; intros ns3 H23; inversion H23; subst.
  - constructor.
  - constructor; [eapply fade_trans; eauto | auto].
Qed.

Lemma fades_alter (ns : list Node) (r : nat) :
  Forall2 fade ns (alter change_iso r ns).
Proof.
  revert r. induction ns as [|n ns IH]; intros [|r]; cbn.
  - constructor.
  - constructor.
  - constructor; [apply fade_change_iso | apply fades_refl].
  - constructor; [apply fade_refl | apply IH].
Qed.

Lemma fades_names (ns ns' : list Node) :
  Forall2 fade ns ns' -> name <$> ns' = name <$> ns.
Proof.
  induction 1 as [|a b l k (Hn & _) _ IH]; [reflexivity|].
  rewrite !fmap_cons, Hn, IH. reflexivity.
Qed.

Lemma fades_indices (ns ns' : list Node) :
  Forall2 fade ns ns' -> index <$> ns' = index <$> ns.
Proof.
  induction 1 as [|a b l k (_ & Hi & _) _ IH]; [reflexivity|].
  rewrite !fmap_cons, Hi, IH. reflexivity.
Qed.

Lemma names_lookup (g : Graph) (r : nat) (n : Node) :
  nodes g !! r = Some n -> names g !! r = Some (name n).
Proof. intros H. unfold names. rewrite list_lookup_fmap, H. reflexivity. Qed.

Lemma names_length (g : Graph) : length (names g) = length (nodes g).
Proof. apply length_fmap. Qed.

Lemma has_node_true (g : Graph) (node : Node) :
  has_node g node = true <->
  exists r t, names g !! r = Some t /\ tuple_eqb (name node) t = true.
Proof.
  unfold has_node, names. rewrite existsb_exists. split.
  - intros (m & Hin & Heq). apply list_elem_of_In, list_elem_of_lookup in Hin.
    destruct Hin as [r Hr]. exists r, (name m).
    rewrite list_lookup_fmap, Hr. auto.
  - intros (r & t & Hr & Heq). rewrite list_lookup_fmap in Hr.
    destruct (nodes g !! r) as [m|] eqn:Hm; [|discriminate].
    injection Hr as <-. exists m. split; [|exact Heq].
    apply list_elem_of_In, list_elem_of_lookup. eauto.
Qed.

Lemma in_nodes_true (g : Graph) (r : nat) :
  in_nodes g r = true <-> r < length (nodes g).
Proof.
  unfold in_nodes. split.
  - destruct (nodes g !! r) eqn:Hr; [|discriminate].
    intros _. eapply lookup_lt_Some, Hr.
  - intros Hlt. destruct (lookup_lt_is_Some_2 _ _ Hlt) as [n Hn].
    rewrite Hn. apply has_node_true. exists r, (name n).
    split; [apply names_lookup, Hn | apply tuple_eqb_refl].
Qed.

Lemma add_edge_nodes (g g' : Graph) (e : WeightedEdge) :
  add_edge g e = Ok g' -> nodes g' = nodes g /\ (keyed g -> keyed g').
Proof.
  unfold add_edge.
  destruct (in_nodes g (get_src e)); simpl; [|discriminate].
  destruct (in_nodes g (get_dest e)); simpl; [|discriminate].
  destruct (edges g !! get_src e) as [es|] eqn:Hes; [|discriminate].
  intros [= <-]. simpl. split; [reflexivity|].
  intros Hk r Hr. simpl in *. rewrite lookup_insert_is_Some.
  specialize (Hk r Hr). destruct (decide (get_src e = r)); auto.
Qed.

(** Inside the graph, edge insertion between two members succeeds. *)
Lemma add_edge_members (g : Graph) (e : WeightedEdge) :
  keyed g -> src e < length (nodes g) -> dest e < length (nodes g) ->
  exists g', add_edge g e = Ok g'.
Proof.
  intros Hk Hs Hd. unfold add_edge, get_src, get_dest.
  rewrite (proj2 (in_nodes_true g (src e)) Hs).
  rewrite (proj2 (in_nodes_true g (dest e)) Hd). simpl.
  destruct (Hk _ Hs) as [es ->]. eauto.
Qed.

Lemma add_node_ok (g g' : Graph) (node : Node) :
  add_node g node = Ok g' ->
  nodes g' = nodes g ++ [node] /\ has_node g node = false /\
  (keyed g -> keyed g').
Proof.
  unfold add_node. destruct (has_node g node); [discriminate|].
  intros [= <-]. simpl. repeat split.
  intros Hk r Hr. simpl in *. rewrite length_app in Hr. simpl in Hr.
  rewrite lookup_insert_is_Some.
  destruct (decide (length (nodes g) = r)); [auto|].
  right. split; [auto|]. apply Hk. lia.
Qed.

Lemma add_node_error (g : Graph) (node : Node) (e : error) :
  add_node g node = Err e -> e = DuplicateNode /\ has_node g node = true.
Proof.
  unfold add_node. destruct (has_node g node); [|discriminate].
  intros [= <-]. auto.
Qed.

Lemma change_iso_at_fades (g : Graph) (r : nat) :
  Forall2 fade (nodes g) (nodes (change_iso_at r g)).
Proof. apply fades_alter. Qed.

Lemma change_iso_at_keyed (g : Graph) (r : nat) :
  keyed g -> keyed (change_iso_at r g).
Proof.
  intros Hk i Hi. unfold change_iso_at in *. simpl in *.
  rewrite length_alter in Hi. auto.
Qed.

(** ** One visit of the inner loop *)

Lemma met_fades t new old d ns : Forall2 fade ns (met t new old d ns).
Proof.
  unfold met. destruct (ns !! new) as [n|]; [|apply fades_refl].
  destruct (is_iso n && float_lt d t); [|apply fades_refl].
  eapply fades_trans; apply fades_alter.
Qed.

Lemma visit_spec t new g old o n :
  keyed g -> nodes g !! old = Some o -> nodes g !! new = Some n ->
  if tuple_eqb (name o) (name n) then visit t new g old = Ok g
  else match dist_of (name n) (name o) with
       | Err e => visit t new g old = Err e
       | Ok d => exists g', visit t new g old = Ok g' /\
                            nodes g' = met t new old d (nodes g) /\ keyed g'
       end.
Proof.
  intros Hk Ho Hn. unfold visit. rewrite Ho, Hn.
  unfold Node_ne, Node_eq.
  destruct (tuple_eqb (name o) (name n)); simpl; [reflexivity|].
  rewrite calculate_dist_names.
  destruct (dist_of (name n) (name o)) as [d|e]; simpl; [|reflexivity].
  destruct (add_edge_members g (mkEdge new old d) Hk) as [g1 Hg1]; simpl.
  { eapply lookup_lt_Some, Hn. }
  { eapply lookup_lt_Some, Ho. }
  rewrite Hg1. simpl.
  destruct (add_edge_nodes _ _ _ Hg1) as [Hns Hk1]. specialize (Hk1 Hk).
  unfold met. rewrite Hns, Hn. unfold get_iso.
  destruct (is_iso n); simpl; [|eauto].
  destruct (float_lt d t); [|eauto].
  eexists. split; [reflexivity|]. simpl. rewrite Hns. split; [reflexivity|].
  auto using change_iso_at_keyed.
Qed.

Lemma visit_ok t new g old g' :
  visit t new g old = Ok g' ->
  Forall2 fade (nodes g) (nodes g') /\ (keyed g -> keyed g').
Proof.
  unfold visit.
  destruct (nodes g !! old) as [o|]; [|intros [= <-]; auto using fades_refl].
  destruct (nodes g !! new) as [n|]; [|intros [= <-]; auto using fades_refl].
  destruct (Node_ne o n); [|intros [= <-]; auto using fades_refl].
  destruct (calculate_dist n o) as [d|]; simpl; [|discriminate].
  destruct (add_edge g _) as [g1|] eqn:Hg1; simpl; [|discriminate].
  destruct (add_edge_nodes _ _ _ Hg1) as [Hns Hk1]. rewrite <- Hns.
  destruct (nodes g1 !! new) as [n1|]; [|intros [= <-]; auto using fades_refl].
  destruct (get_iso n1); [|intros [= <-]; auto using fades_refl].
  destruct (float_lt d t); intros [= <-]; [|auto using fades_refl].
  split.
  - eapply fades_trans; apply change_iso_at_fades.
  - auto using change_iso_at_keyed.
Qed.

(** ** The inner loop *)

Lemma for_old_nodes_ok t new olds g g' :
  for_old_nodes t new olds g = Ok g' ->
  Forall2 fade (nodes g) (nodes g') /\ (keyed g -> keyed g').
Proof.
  revert g. induction olds as [|old olds IH]; intros g; simpl.
  - intros [= <-]. auto using fades_refl.
  - destruct (visit t new g old) as [g1|] eqn:Hv; simpl; [|discriminate].
    intros Hrest. destruct (visit_ok _ _ _ _ _ Hv) as [Hf Hk].
    destruct (IH _ Hrest) as [Hf' Hk']. split; [|auto].
    eapply fades_trans; eauto.
Qed.

(** The inner loop fails exactly when the new node meets a member with
    another name whose distance to it cannot be computed. *)
Lemma for_old_nodes_raises t new olds g tn :
  keyed g -> names g !! new = Some tn ->
  Forall (fun r => r < length (nodes g)) olds ->
  raises (for_old_nodes t new olds g) <->
  exists r to, r ∈ olds /\ names g !! r = Some to /\
               tuple_eqb to tn = false /\ raises (dist_of tn to).
Proof.
  revert g. induction olds as [|old olds IH]; intros g Hk Hn Hr; simpl.
  - split; [intros [e He]; discriminate|].
    intros (r & to & Hin & _). inversion Hin.
  - apply Forall_cons in Hr as [Hold Hr].
    destruct (lookup_lt_is_Some_2 _ _ Hold) as [o Ho].
    assert (exists n, nodes g !! new = Some n /\ name n = tn) as (n & Hnn & <-).
    { unfold names in Hn. rewrite list_lookup_fmap in Hn.
      destruct (nodes g !! new) as [n|]; [|discriminate].
      injection Hn as <-. eauto. }
    pose proof (visit_spec t new g old o n Hk Ho Hnn) as Hv.
    pose proof (names_lookup _ _ _ Ho) as Hto.
    destruct (tuple_eqb (name o) (name n)) eqn:Heq.
    + rewrite Hv. simpl. rewrite IH by auto. split.
      * intros (r & to & Hin & Hrest). exists r, to. split; [right; auto|auto].
      * intros (r & to & Hin & Hl & Hne & Hd). exists r, to.
        apply elem_of_cons in Hin as [->|Hin]; [|auto].
        rewrite Hto in Hl. injection Hl as <-. congruence.
    + destruct (dist_of (name n) (name o)) as [d|e] eqn:Hd.
      * destruct Hv as (g1 & -> & Hns & Hk1). simpl.
        assert (Hnames : names g1 = names g).
        { unfold names. rewrite Hns. apply fades_names, met_fades. }
        assert (Hlen : length (nodes g1) = length (nodes g)).
        { rewrite <- !names_length. congruence. }
        rewrite IH; [| auto | congruence | rewrite Hlen; auto ].
        rewrite Hnames. split.
        -- intros (r & to & Hin & Hrest). exists r, to.
           split; [right; auto|auto].
        -- intros (r & to & Hin & Hl & Hne & Hdr). exists r, to.
           apply elem_of_cons in Hin as [->|Hin]; [|auto].
           rewrite Hto in Hl. injection Hl as <-.
           destruct Hdr as [e He]. congruence.
      * rewrite Hv. simpl. split; [|intros _; eexists; reflexivity].
        intros _. exists old, (name o).
        repeat split; [left | auto | auto | eexists; eauto].
Qed.

Lemma for_old_nodes_error t new olds g e :
  keyed g -> new < length (nodes g) ->
  Forall (fun r => r < length (nodes g)) olds ->
  for_old_nodes t new olds g = Err e -> e = OverflowError.
Proof.
  revert g. induction olds as [|old olds IH]; intros g Hk Hn Hr; simpl.
  - discriminate.
  - apply Forall_cons in Hr as [Hold Hr].
    destruct (lookup_lt_is_Some_2 _ _ Hold) as [o Ho].
    destruct (lookup_lt_is_Some_2 _ _ Hn) as [n Hnn].
    pose proof (visit_spec t new g old o n Hk Ho Hnn) as Hv.
    destruct (visit t new g old) as [g1|e1] eqn:Hvis; simpl.
    + destruct (visit_ok _ _ _ _ _ Hvis) as [Hf Hk1].
      pose proof (Forall2_length _ _ _ Hf) as Hlen.
      apply IH; [auto | lia | rewrite <- Hlen; auto].
    + intros [= <-].
      destruct (tuple_eqb (name o) (name n)); [discriminate|].
      destruct (dist_of (name n) (name o)) as [d|e2] eqn:Hd.
      * destruct Hv as (? & ? & _). discriminate.
      * injection Hv as <-. eapply dist_of_error, Hd.
Qed.

(** ** The outer loop *)

Lemma fresh_nodes_cons index t l :
  fresh_nodes index (t :: l) = Node_init t index :: fresh_nodes (S index) l.
Proof.
  unfold fresh_nodes. rewrite imap_cons. f_equal; [f_equal; lia|].
  apply imap_ext. intros i x _. simpl. f_equal. lia.
Qed.

Lemma fresh_nodes_lookup index l i n :
  fresh_nodes index l !! i = Some n <->
  exists t, l !! i = Some t /\ n = Node_init t (index + i).
Proof.
  unfold fresh_nodes. rewrite list_lookup_imap.
  destruct (l !! i) as [t|]; simpl; split.
  - intros [= <-]. eauto.
  - intros (t' & [= <-] & ->). reflexivity.
  - discriminate.
  - intros (t' & [=] & _).
Qed.

Lemma fresh_nodes_names index l : name <$> fresh_nodes index l = l.
Proof.
  revert index. induction l as [|t l IH]; intros index; [reflexivity|].
  rewrite fresh_nodes_cons, fmap_cons, IH. reflexivity.
Qed.

Lemma fresh_nodes_indices k l :
  index <$> fresh_nodes k l = seq k (length l).
Proof.
  revert k. induction l as [|t l IH]; intros k; [reflexivity|].
  rewrite fresh_nodes_cons, fmap_cons, IH. reflexivity.
Qed.

Lemma raises_bind {A B} (m : result A) (k : A -> result B) :
  raises (m ≫= k) <-> raises m \/ exists a, m = Ok a /\ raises (k a).
Proof.
  destruct m as [a|e]; simpl; split.
  - intros H. right. eauto.
  - intros [[e He]|(a' & [= <-] & H)]; [discriminate|exact H].
  - intros _. left. eexists. reflexivity.
  - intros _. eexists. reflexivity.
Qed.

Lemma raises_Ok {A} (a : A) : ~ raises (Ok a).
Proof. intros [e He]. discriminate. Qed.

Section Loading.

Variable set_order : list tuple -> list nat.
Hypothesis set_order_perm : forall l, set_order l ≡ₚ seq 0 (length l).

Lemma iter_nodes_elem (g : Graph) (r : nat) :
  r ∈ iter_nodes set_order g <-> r < length (nodes g).
Proof.
  unfold iter_nodes. rewrite set_order_perm, elem_of_seq, length_fmap. lia.
Qed.

Lemma iter_nodes_range (g : Graph) :
  Forall (fun r => r < length (nodes g)) (iter_nodes set_order g).
Proof. apply Forall_forall. intros r. apply iter_nodes_elem. Qed.

Lemma iter_nodes_NoDup (g : Graph) : NoDup (iter_nodes set_order g).
Proof. unfold iter_nodes. rewrite set_order_perm. apply NoDup_seq. Qed.

Lemma load_step_ok t g index tuple g' :
  load_step set_order t g index tuple = Ok g' ->
  Forall2 fade (nodes g ++ [Node_init tuple index]) (nodes g') /\
  (keyed g -> keyed g').
Proof.
  unfold load_step.
  destruct (add_node g _) as [g1|] eqn:Hadd; simpl; [|discriminate].
  destruct (add_node_ok _ _ _ Hadd) as (Hns & _ & Hk).
  intros Hloop. apply for_old_nodes_ok in Hloop as [Hf Hk'].
  rewrite <- Hns. auto.
Qed.

Lemma load_step_raises t g index tuple :
  keyed g ->
  raises (load_step set_order t g index tuple) <->
  exists r to, names g !! r = Some to /\ clash tuple to.
Proof.
  intros Hk. unfold load_step.
  destruct (add_node g _) as [g1|e] eqn:Hadd; simpl.
  - destruct (add_node_ok _ _ _ Hadd) as (Hns & Hnew & Hk1).
    assert (Hfree : forall r to, names g !! r = Some to ->
                                 tuple_eqb tuple to = false).
    { intros r to Hr. destruct (tuple_eqb tuple to) eqn:Heq; [|reflexivity].
      rewrite <- Hnew. symmetry. apply has_node_true. eauto. }
    assert (Hnames : names g1 = names g ++ [tuple]).
    { unfold names. rewrite Hns, fmap_app. reflexivity. }
    rewrite (for_old_nodes_raises _ _ _ _ tuple);
      [| auto | | apply iter_nodes_range].
    2:{ rewrite Hnames, Hns, length_app. simpl.
        replace (Nat.pred (length (nodes g) + 1)) with (length (names g))
          by (rewrite names_length; lia).
        apply list_lookup_middle. reflexivity. }
    rewrite Hnames. split.
    + intros (r & to & _ & Hr & Hne & Hd).
      apply lookup_app_Some in Hr as [Hr|[_ Hr]].
      * exists r, to. split; [exact Hr | right; exact Hd].
      * destruct (r - length (names g)); [|discriminate].
        injection Hr as <-. rewrite tuple_eqb_refl in Hne. discriminate.
    + intros (r & to & Hr & [Heq|Hd]).
      { rewrite (Hfree _ _ Hr) in Heq. discriminate. }
      exists r, to. repeat split; [| | | exact Hd].
      * apply iter_nodes_elem. rewrite Hns, length_app. simpl.
        apply lookup_lt_Some in Hr. rewrite names_length in Hr. lia.
      * apply lookup_app_l_Some, Hr.
      * rewrite tuple_eqb_sym. eauto.
  - apply add_node_error in Hadd as [-> Hdup].
    split; [|intros _; eexists; reflexivity].
    intros _. apply has_node_true in Hdup as (r & to & Hr & Heq).
    exists r, to. split; [exact Hr | left; exact Heq].
Qed.

Lemma load_step_error t g index tuple e :
  keyed g -> load_step set_order t g index tuple = Err e ->
  e = DuplicateNode \/ e = OverflowError.
Proof.
  intros Hk. unfold load_step.
  destruct (add_node g _) as [g1|e1] eqn:Hadd; simpl.
  - destruct (add_node_ok _ _ _ Hadd) as (Hns & _ & Hk1). intros Hloop.
    right. eapply for_old_nodes_error; [| |apply iter_nodes_range|exact Hloop].
    + auto.
    + rewrite Hns, length_app. simpl. lia.
  - intros [= <-]. apply add_node_error in Hadd as [-> _]. auto.
Qed.

Lemma load_from_ok t index l g g' :
  load_from set_order t index l g = Ok g' ->
  Forall2 fade (nodes g ++ fresh_nodes index l) (nodes g') /\
  (keyed g -> keyed g').
Proof.
  revert index g. induction l as [|tuple l IH]; intros index g; simpl.
  - intros [= <-]. unfold fresh_nodes. simpl. rewrite app_nil_r.
    auto using fades_refl.
  - destruct (load_step _ t g index tuple) as [g1|] eqn:Hstep; simpl;
      [|discriminate].
    intros Hrest. apply load_step_ok in Hstep as [Hf Hk].
    apply IH in Hrest as [Hf' Hk']. split; [|auto].
    rewrite fresh_nodes_cons, cons_middle, app_assoc.
    eapply fades_trans; [|exact Hf'].
    apply Forall2_app; [exact Hf | apply fades_refl].
Qed.

Lemma load_from_error t index l g e :
  keyed g -> load_from set_order t index l g = Err e ->
  e = DuplicateNode \/ e = OverflowError.
Proof.
  revert index g. induction l as [|tuple l IH]; intros index g Hk; simpl.
  - discriminate.
  - destruct (load_step _ t g index tuple) as [g1|e1] eqn:Hstep; simpl.
    + apply load_step_ok in Hstep as [_ Hk1]. eauto.
    + intros [= <-]. eapply load_step_error; eauto.
Qed.

Lemma load_from_raises t index l g :
  keyed g ->
  raises (load_from set_order t index l g) <->
  exists i j ti tj,
    i < j /\ length (nodes g) <= j /\
    (names g ++ l) !! i = Some ti /\ (names g ++ l) !! j = Some tj /\
    clash tj ti.
Proof.
  revert index g. induction l as [|tuple l IH]; intros index g Hk; simpl.
  - split; [intros H; destruct (raises_Ok _ H)|].
    intros (i & j & ti & tj & _ & Hj & _ & Hl & _).
    rewrite app_nil_r in Hl. apply lookup_lt_Some in Hl.
    rewrite names_length in Hl. lia.
  - pose proof (load_step_raises t g index tuple Hk) as Hstep.
    destruct (load_step _ t g index tuple) as [g1|e1] eqn:Hs; simpl.
    + destruct (load_step_ok _ _ _ _ _ Hs) as [Hf Hk1].
      assert (Hnames : names g1 = names g ++ [tuple]).
      { unfold names. rewrite (fades_names _ _ Hf), fmap_app. reflexivity. }
      assert (Hlen : length (nodes g1) = S (length (nodes g))).
      { rewrite <- !names_length, Hnames, length_app. simpl. lia. }
      rewrite IH by auto. rewrite Hnames, Hlen, <- app_assoc. simpl.
      split.
      * intros (i & j & ti & tj & Hij & Hj & Hi & Hl & Hc).
        exists i, j, ti, tj. repeat split; auto. lia.
      * intros (i & j & ti & tj & Hij & Hj & Hi & Hl & Hc).
        exists i, j, ti, tj. repeat split; auto.
        destruct (decide (j = length (nodes g))) as [->|]; [|lia].
        exfalso. apply (raises_Ok g1), Hstep.
        rewrite <- names_length, list_lookup_middle in Hl by reflexivity.
        injection Hl as <-. exists i, ti. split; [|exact Hc].
        rewrite lookup_app_l in Hi by (rewrite names_length; lia). exact Hi.
    + split; [|intros _; eexists; reflexivity].
      intros _. destruct (proj1 Hstep) as (r & to & Hr & Hc).
      { eexists; reflexivity. }
      pose proof (lookup_lt_Some _ _ _ Hr) as Hlt.
      rewrite names_length in Hlt.
      exists r, (length (nodes g)), to, tuple. repeat split; auto.
      * apply lookup_app_l_Some, Hr.
      * rewrite <- names_length. apply list_lookup_middle. reflexivity.
Qed.

End Loading.

(** ** The loaded graph and the collected indices *)

Lemma keyed_init : keyed Graph_init.
Proof. intros r Hr. simpl in Hr. lia. Qed.

Lemma load_graph_ok set_order l t g :
  load_graph set_order l t = Ok g ->
  Forall2 fade (fresh_nodes 0 l) (nodes g) /\ keyed g.
Proof.
  intros Hload. apply load_from_ok in Hload as [Hf Hk].
  split; [exact Hf | apply Hk, keyed_init].
Qed.

(** A node of the loaded graph sits at the position of its tuple in the
    input, carries that position as its index and that tuple as name. *)
Lemma loaded_node set_order l t g r n :
  load_graph set_order l t = Ok g -> nodes g !! r = Some n ->
  exists tuple, l !! r = Some tuple /\ fade (Node_init tuple r) n.
Proof.
  intros Hload Hn. apply load_graph_ok in Hload as [Hf _].
  destruct (Forall2_lookup_r _ _ _ _ _ Hf Hn) as (n0 & Hn0 & Hfade).
  apply fresh_nodes_lookup in Hn0 as (tuple & Ht & ->). eauto.
Qed.

Lemma loaded_length set_order l t g :
  load_graph set_order l t = Ok g -> length (nodes g) = length l.
Proof.
  intros Hload. apply load_graph_ok in Hload as [Hf _].
  apply Forall2_length in Hf. rewrite <- Hf. unfold fresh_nodes.
  apply length_imap.
Qed.

Lemma loaded_names set_order l t g :
  load_graph set_order l t = Ok g -> names g = l.
Proof.
  intros Hload. apply load_graph_ok in Hload as [Hf _].
  unfold names. rewrite (fades_names _ _ Hf). apply fresh_nodes_names.
Qed.

Lemma collect_filter g order :
  (forall r n, nodes g !! r = Some n -> index n = r) ->
  collect g order = filter (fun r => iso_at g r = true) order.
Proof.
  intros Hidx. unfold collect.
  set (body := fun (isolated_stars : list nat) (r : nat) =>
                 match nodes g !! r with
                 | Some node =>
                     if get_iso node then isolated_stars ++ [index node]
                     else isolated_stars
                 | None => isolated_stars
                 end).
  assert (Hacc : forall acc,
            foldl body acc order
            = acc ++ filter (fun r => iso_at g r = true) order).
  { induction order as [|r order IH]; intros acc; simpl.
    - rewrite filter_nil, app_nil_r. reflexivity.
    - rewrite IH, filter_cons. unfold body at 1.
      destruct (decide (iso_at g r = true)) as [Hd|Hd];
        unfold iso_at in Hd; destruct (nodes g !! r) as [n|] eqn:Hn;
        try discriminate; try reflexivity; unfold get_iso.
      + rewrite Hd, (Hidx _ _ Hn), <- app_assoc. reflexivity.
      + destruct (is_iso n); [congruence | reflexivity]. }
  apply (Hacc []).
Qed.

Lemma isolated_filter set_order l t r :
  isolated set_order l t = Ok r ->
  exists g, load_graph set_order l t = Ok g /\
            r = filter (fun i => iso_at g i = true) (set_order l).
Proof.
  unfold isolated.
  destruct (load_graph set_order l t) as [g|] eqn:Hload; simpl;
    [|discriminate].
  intros [= <-]. exists g. split; [reflexivity|].
  unfold iter_nodes. fold (names g). rewrite (loaded_names _ _ _ _ Hload).
  apply collect_filter. intros i n Hn.
  destruct (loaded_node _ _ _ _ _ _ Hload Hn) as (tuple & _ & _ & Hi & _).
  exact Hi.
Qed.

Lemma isolated_raises set_order l t :
  raises (isolated set_order l t) <-> raises (load_graph set_order l t).
Proof.
  unfold isolated. rewrite raises_bind. split; [|auto].
  intros [H|(g & _ & H)]; [exact H|]. destruct (raises_Ok _ H).
Qed.

Lemma ascending_filter_seq (P : nat -> Prop) `{forall i, Decision (P i)}
    (a n : nat) :
  ascending (filter P (seq a n)).
Proof.
  revert a. induction n as [|n IH]; intros a; simpl.
  - constructor.
  - rewrite filter_cons. destruct (decide (P a)); [|apply IH].
    constructor; [apply IH|].
    apply Forall_forall. intros i Hi.
    apply list_elem_of_filter in Hi as [_ Hi].
    apply elem_of_seq in Hi. lia.
Qed.

Lemma filter_members (P : nat -> Prop) `{forall i, Decision (P i)}
    (l : list nat) :
  filter (fun i => i ∈ filter P l) l = filter P l.
Proof.
  assert (Hgen : forall k : list nat, (forall i, i ∈ k -> i ∈ l) ->
            filter (fun i => i ∈ filter P l) k = filter P k).
  { induction k as [|i k IH]; intros Hsub; [reflexivity|].
    rewrite !filter_cons, IH by (intros j Hj; apply Hsub; right; exact Hj).
    destruct (decide (P i)) as [Hp|Hp].
    - rewrite decide_True; [reflexivity|].
      apply list_elem_of_filter. split; [exact Hp | apply Hsub; left].
    - rewrite decide_False; [reflexivity|].
      intros Hin. apply list_elem_of_filter in Hin as [Hp' _]. auto. }
  apply Hgen. auto.
Qed.

(** ** Concrete inputs *)

Lemma insertion_order_perm (l : list tuple) :
  insertion_order l ≡ₚ seq 0 (length l).
Proof. reflexivity. Qed.

Lemma reverse_order_perm (l : list tuple) :
  reverse_order l ≡ₚ seq 0 (length l).
Proof. unfold reverse_order. apply Permutation_sym, Permutation_rev. Qed.

Lemma fades_still_false (g g' : Graph) (extra : list Node) :
  Forall2 fade (nodes g ++ extra) (nodes g') -> still_false g g'.
Proof.
  intros Hf r n Hn Hfalse.
  destruct (Forall2_lookup_l _ _ _ r n Hf) as (n' & Hn' & _ & _ & Hflag).
  { apply lookup_app_l_Some, Hn. }
  eauto.
Qed.

(** * The claims *)

(** C7. Distance is symmetric: [calculate_dist(a, b)] and
    [calculate_dist(b, a)] give exactly the same outcome, for every pair
    of nodes. *)
Theorem C7_calculate_dist_symmetric (a b : Node) :
  calculate_dist a b = calculate_dist b a.
Proof. rewrite !calculate_dist_names. apply dist_of_sym. Qed.

(** C6, as the code has it. [calculate_dist] truncates each coordinate
    toward zero, sums the squares of the two integer differences, and
    returns the binary64 square root of that integer when the integer
    converts to a float; it raises [OverflowError] when it does not. *)
Theorem C6_calculate_dist_value (a b : Node) :
  exists x1 y1 x2 y2 : Z,
    truncates (name a).1 x1 /\ truncates (name a).2 y1 /\
    truncates (name b).1 x2 /\ truncates (name b).2 y2 /\
    let n := ((x1 - x2) ^ 2 + (y1 - y2) ^ 2)%Z in
    (0 <= n)%Z /\
    calculate_dist a b =
      match float_of_int n with
      | Ok f => Ok (SFsqrt prec emax f)
      | Err _ => Err OverflowError
      end.
Proof.
  exists (int (name a).1), (int (name a).2), (int (name b).1), (int (name b).2).
  do 4 (split; [apply int_truncates|]). split.
  - apply (sqdist_nonneg (name a) (name b)).
  - rewrite calculate_dist_names. unfold dist_of.
    rewrite math_sqrt_nonneg by apply sqdist_nonneg. unfold sqdist.
    destruct (float_of_int _) as [f|e] eqn:E; [reflexivity|].
    apply float_of_int_error in E. subst e. reflexivity.
Qed.

(** C6 as stated fails: for the points (0,0) and (2^600,0) the call
    returns no distance at all. *)
Lemma C6_counterexample :
  ~ exists d, calculate_dist (Node_init (pt 0 0) 0)
                             (Node_init (pt (2 ^ 600) 0) 1) = Ok d.
Proof. intros [d Hd]. vm_compute in Hd. discriminate. Qed.

(** C8. The isolation flag only falls: a node is created with
    [is_iso = True]; [change_iso] sets it to [False] and is idempotent;
    and across every operation of the program (a flag change through a
    reference, [add_node], [add_edge], one visit of the inner loop, the
    whole loading loop) a flag that is [False] stays [False]. *)
Theorem C8_flag_monotone :
  (forall name index, is_iso (Node_init name index) = true) /\
  (forall n, is_iso (change_iso n) = false) /\
  (forall n, change_iso (change_iso n) = change_iso n) /\
  (forall r g, still_false g (change_iso_at r g)) /\
  (forall g node g', add_node g node = Ok g' -> still_false g g') /\
  (forall g edge g', add_edge g edge = Ok g' -> still_false g g') /\
  (forall t new g old g', visit t new g old = Ok g' -> still_false g g') /\
  (forall set_order t index l g g',
      load_from set_order t index l g = Ok g' -> still_false g g').
Proof.
  repeat split.
  - intros r g. apply (fades_still_false _ _ []). rewrite app_nil_r.
    apply change_iso_at_fades.
  - intros g node g' Hadd. apply add_node_ok in Hadd as (Hns & _).
    apply (fades_still_false _ _ [node]). rewrite Hns. apply fades_refl.
  - intros g edge g' Hadd. apply add_edge_nodes in Hadd as (Hns & _).
    apply (fades_still_false _ _ []). rewrite app_nil_r, Hns.
    apply fades_refl.
  - intros t new g old g' Hv. apply visit_ok in Hv as [Hf _].
    apply (fades_still_false _ _ []). rewrite app_nil_r. exact Hf.
  - intros set_order t index l g g' Hload.
    apply load_from_ok in Hload as [Hf _].
    eapply fades_still_false, Hf.
Qed.

Section Claims.

Variable set_order : list tuple -> list nat.
Hypothesis set_order_perm : forall l, set_order l ≡ₚ seq 0 (length l).

(** C9. Every index returned by [isolated] is a position of the input
    list, it is the index its node was given at construction (with the
    tuple at that position as name) and still carries, and no index is
    returned twice. *)
Theorem C9_index_preservation (l : list tuple) (t : number) (r : list nat) :
  isolated set_order l t = Ok r ->
  NoDup r /\
  forall i, i ∈ r ->
    i < length l /\
    exists tuple g n,
      l !! i = Some tuple /\ load_graph set_order l t = Ok g /\
      nodes g !! i = Some n /\ fade (Node_init tuple i) n /\
      index n = i /\ is_iso n = true.
Proof.
  intros Hiso. apply isolated_filter in Hiso as (g & Hload & ->). split.
  - apply NoDup_filter. rewrite set_order_perm. apply NoDup_seq.
  - intros i Hi. apply list_elem_of_filter in Hi as [Hflag Hin].
    unfold iso_at in Hflag.
    destruct (nodes g !! i) as [n|] eqn:Hn; [|discriminate].
    destruct (loaded_node _ _ _ _ _ _ Hload Hn) as (tuple & Ht & Hfade).
    split; [eapply lookup_lt_Some, Ht|].
    exists tuple, g, n. repeat split; auto; apply Hfade.
Qed.

(** C10. On the path from [isolated], the two error branches of
    [add_edge] are dead: whatever error the call ends with, it is neither
    "Source node not in graph" nor "Destination node not in graph" (nor a
    missing key of the edge dictionary). *)
Theorem C10_add_edge_never_raises (l : list tuple) (t : number) (e : error) :
  isolated set_order l t = Err e ->
  e <> SourceNotInGraph /\ e <> DestinationNotInGraph /\ e <> KeyError.
Proof.
  unfold isolated.
  destruct (load_graph set_order l t) as [g|e'] eqn:Hload; simpl;
    [discriminate|].
  intros [= <-].
  apply load_from_error in Hload as [->| ->];
    auto using keyed_init; repeat split; discriminate.
Qed.

(** C4, as the code has it. [isolated] raises exactly when some
    coordinate pair of the input equals an earlier one, or lies so far
    from an earlier one that [math.sqrt] cannot convert the squared
    distance to a float; the error is then the duplicate [ValueError] or
    the [OverflowError], and no result is returned. *)
Theorem C4_raises_iff (l : list tuple) (t : number) :
  (raises (isolated set_order l t) <->
   has_duplicate l \/
   exists i j ti tj,
     i < j /\ l !! i = Some ti /\ l !! j = Some tj /\
     calculate_dist (Node_init tj j) (Node_init ti i) = Err OverflowError) /\
  (forall e, isolated set_order l t = Err e ->
             (e = DuplicateNode \/ e = OverflowError) /\
             forall r, isolated set_order l t <> Ok r).
Proof.
  split.
  - rewrite isolated_raises. unfold load_graph.
    rewrite load_from_raises by auto using keyed_init.
    unfold has_duplicate, clash. simpl. split.
    + intros (i & j & ti & tj & Hij & _ & Hi & Hj & [Heq|[e He]]).
      * left. exists i, j, ti, tj. auto.
      * right. exists i, j, ti, tj. repeat split; auto.
        rewrite calculate_dist_names. simpl.
        rewrite He. f_equal. eapply dist_of_error, He.
    + intros [(i & j & ti & tj & Hij & Hi & Hj & Heq)
             |(i & j & ti & tj & Hij & Hi & Hj & Hd)];
        exists i, j, ti, tj; repeat split; auto; try lia.
      right. rewrite calculate_dist_names in Hd. eexists. exact Hd.
  - intros e He. split; [|intros r Hr; congruence].
    unfold isolated in He.
    destruct (load_graph set_order l t) as [g|e'] eqn:Hload; simpl in He;
      [discriminate|].
    injection He as <-.
    eapply (load_from_error set_order set_order_perm);
      [apply keyed_init | exact Hload].
Qed.

(** C3, as the code has it. The indices come out in the order in which
    the node set is iterated: the result lists its members as that order
    has them.  It is ascending when the set iterates in insertion order,
    and it is a function of the input. *)
Theorem C3_result_in_set_order (l : list tuple) (t : number) (r : list nat) :
  isolated set_order l t = Ok r ->
  r = filter (fun i => i ∈ r) (set_order l) /\
  (set_order l = seq 0 (length l) -> ascending r) /\
  (forall r', isolated set_order l t = Ok r' -> r' = r).
Proof.
  intros Hiso. split; [|split].
  - apply isolated_filter in Hiso as (g & _ & ->).
    symmetry. apply filter_members.
  - intros Hord. apply isolated_filter in Hiso as (g & _ & ->).
    rewrite Hord. apply ascending_filter_seq.
  - intros r' Hr'. congruence.
Qed.

End Claims.

(** C3 as stated fails: a set may iterate its two members in the order
    opposite to insertion, and the indices then come out descending. *)
Lemma C3_counterexample :
  (forall l, reverse_order l ≡ₚ seq 0 (length l)) /\
  exists r, isolated reverse_order [pt 0 0; pt 10 10] (PyInt 1) = Ok r /\
            ~ ascending r.
Proof.
  split; [apply reverse_order_perm|].
  exists [1; 0]. split; [vm_compute; reflexivity|].
  intros Hs. inversion Hs as [|? ? _ Hall]; subst.
  inversion Hall as [|? ? Hlt _]; subst. lia.
Qed.

(** C4 as stated fails: two distinct points, no duplicate, and the call
    still raises. *)
Lemma C4_counterexample :
  ~ (raises (isolated insertion_order [pt 0 0; pt (2 ^ 600) 0] (PyInt 1))
     <-> has_duplicate [pt 0 0; pt (2 ^ 600) 0]).
Proof.
  intros [Hto _].
  destruct Hto as (i & j & ti & tj & Hij & Hi & Hj & Heq).
  { exists OverflowError. vm_compute. reflexivity. }
  destruct j as [|[|j]]; [lia | | discriminate].
  destruct i as [|i]; [|lia].
  injection Hi as <-. injection Hj as <-. vm_compute in Heq. discriminate.
Qed.

(** ** Two points at the boundary *)

Lemma SFeqb_not_lt (g d : float) : SFeqb g d = true -> SFltb d g = false.
Proof.
  unfold SFeqb, SFltb.
  destruct g as [s1|s1| |s1 m1 e1], d as [s2|s2| |s2 m2 e2]; simpl;
    try discriminate; try reflexivity;
    destruct s1, s2; simpl; try discriminate; try reflexivity.
  - destruct (Z.compare_spec e1 e2) as [->|?|?]; try discriminate.
    rewrite Z.compare_refl. fold (Pos.compare m1 m2).
    destruct (Pos.compare_spec m1 m2) as [->|?|?]; try discriminate.
    fold (Pos.compare m2 m2). rewrite Pos.compare_refl. reflexivity.
  - destruct (Z.compare_spec e1 e2) as [->|?|?]; try discriminate.
    rewrite Z.compare_refl. fold (Pos.compare m1 m2).
    destruct (Pos.compare_spec m1 m2) as [->|?|?]; try discriminate.
    fold (Pos.compare m2 m2). rewrite Pos.compare_refl. reflexivity.
Qed.

Lemma float_eq_int_not_lt (d : float) (z : Z) :
  float_eq_int d z = true -> float_lt_int d z = false.
Proof.
  unfold float_eq_int, float_lt_int.
  destruct d as [s|s| |s m e]; try discriminate.
  - intros H. apply Z.eqb_eq in H as <-. reflexivity.
  - destruct (0 <=? e)%Z; intros H; apply Z.eqb_eq in H; rewrite H;
      apply Z.ltb_irrefl.
Qed.

Lemma number_eq_not_lt (t : number) (d : float) :
  number_eq_float t d = true -> float_lt d t = false.
Proof.
  destruct t as [z|g]; simpl;
    [apply float_eq_int_not_lt | apply SFeqb_not_lt].
Qed.

Lemma visit_self t new g n :
  keyed g -> nodes g !! new = Some n -> visit t new g new = Ok g.
Proof.
  intros Hk Hn. pose proof (visit_spec t new g new n n Hk Hn Hn) as Hv.
  rewrite tuple_eqb_refl in Hv. exact Hv.
Qed.

Lemma visit_other t new g old o n d :
  keyed g -> nodes g !! old = Some o -> nodes g !! new = Some n ->
  tuple_eqb (name o) (name n) = false -> dist_of (name n) (name o) = Ok d ->
  exists g', visit t new g old = Ok g' /\
             nodes g' = met t new old d (nodes g) /\ keyed g'.
Proof.
  intros Hk Ho Hn Hne Hd.
  pose proof (visit_spec t new g old o n Hk Ho Hn) as Hv.
  rewrite Hne, Hd in Hv. exact Hv.
Qed.

Lemma Permutation_two (o : list nat) :
  o ≡ₚ [0; 1] -> o = [0; 1] \/ o = [1; 0].
Proof.
  intros Hp. apply Permutation_sym, permutations_Permutation in Hp.
  vm_compute in Hp.
  repeat (apply elem_of_cons in Hp as [->|Hp]; [auto|]).
  inversion Hp.
Qed.

Section TwoPoints.

Variable set_order : list tuple -> list nat.
Hypothesis set_order_perm : forall l, set_order l ≡ₚ seq 0 (length l).

Variables (p q : tuple) (d : float) (t : number).
Hypothesis distinct : tuple_eqb p q = false.
Hypothesis apart : dist_of q p = Ok d.

Lemma load_first :
  exists g, load_step set_order t Graph_init 0 p = Ok g /\
            nodes g = [Node_init p 0] /\ keyed g.
Proof.
  unfold load_step, add_node. simpl.
  set (g0 := mkGraph [Node_init p 0] (<[0:=[]]> ∅)).
  assert (Hk : keyed g0).
  { intros r Hr. simpl in *. replace r with 0 by lia.
    rewrite lookup_insert_eq. eauto. }
  unfold iter_nodes. simpl.
  pose proof (set_order_perm [p]) as Hp. simpl in Hp.
  apply Permutation_singleton_r in Hp. rewrite Hp. simpl.
  rewrite (visit_self t 0 g0 (Node_init p 0) Hk eq_refl). simpl.
  exists g0. auto.
Qed.

Lemma load_second g0 :
  nodes g0 = [Node_init p 0] -> keyed g0 ->
  exists g, load_step set_order t g0 1 q = Ok g /\
            nodes g = met t 1 0 d [Node_init p 0; Node_init q 1].
Proof.
  intros Hns Hk0. unfold load_step.
  destruct (add_node g0 (Node_init q 1)) as [g1|e] eqn:Hadd.
  2:{ apply add_node_error in Hadd as [_ Hdup].
      unfold has_node in Hdup. rewrite Hns in Hdup. simpl in Hdup.
      unfold Node_eq in Hdup. simpl in Hdup.
      rewrite tuple_eqb_sym, distinct in Hdup. discriminate. }
  apply add_node_ok in Hadd as (Hns1 & _ & Hk1). specialize (Hk1 Hk0).
  rewrite Hns in Hns1. simpl in Hns1. simpl.
  unfold iter_nodes. rewrite Hns1. simpl.
  assert (Hother : exists g2, visit t 1 g1 0 = Ok g2 /\
            nodes g2 = met t 1 0 d (nodes g1) /\ keyed g2).
  { apply (visit_other t 1 g1 0 (Node_init p 0) (Node_init q 1) d);
      auto; rewrite Hns1; reflexivity. }
  destruct Hother as (g2 & Hv & Hns2 & Hk2).
  assert (Hq2 : exists n, nodes g2 !! 1 = Some n).
  { apply lookup_lt_is_Some_2.
    rewrite Hns2, <- (Forall2_length _ _ _ (met_fades t 1 0 d (nodes g1))).
    rewrite Hns1. simpl. lia. }
  destruct Hq2 as [n2 Hn2].
  destruct (Permutation_two _ (set_order_perm [p; q])) as [-> | ->]; simpl.
  - rewrite Hv. simpl. rewrite (visit_self t 1 g2 n2 Hk2 Hn2). simpl.
    exists g2. rewrite Hns2, Hns1. auto.
  - rewrite (visit_self t 1 g1 (Node_init q 1) Hk1)
      by (rewrite Hns1; reflexivity).
    simpl. rewrite Hv. simpl. exists g2. rewrite Hns2, Hns1. auto.
Qed.

Lemma load_two :
  exists g, load_graph set_order [p; q] t = Ok g /\
            nodes g = met t 1 0 d [Node_init p 0; Node_init q 1].
Proof.
  unfold load_graph. simpl.
  destruct load_first as (g0 & -> & Hns & Hk). simpl.
  destruct (load_second g0 Hns Hk) as (g & -> & Hg). simpl. eauto.
Qed.

End TwoPoints.

(** C5. The comparison is strict.  For two points with distinct
    coordinates whose computed distance is [d]: with a threshold equal to
    [d] both indices are returned; with any threshold that [d] is less
    than, neither is. *)
Theorem C5_threshold_boundary
    (set_order : list tuple -> list nat)
    (set_order_perm : forall l, set_order l ≡ₚ seq 0 (length l))
    (p q : tuple) (d : float) (t : number) :
  tuple_eqb p q = false ->
  calculate_dist (Node_init q 1) (Node_init p 0) = Ok d ->
  (number_eq_float t d = true ->
   exists r, isolated set_order [p; q] t = Ok r /\ r ≡ₚ [0; 1]) /\
  (float_lt d t = true -> isolated set_order [p; q] t = Ok []).
Proof.
  intros Hne Hd. rewrite calculate_dist_names in Hd. simpl in Hd.
  destruct (load_two set_order set_order_perm p q d t Hne Hd)
    as (g & Hload & Hns).
  assert (Hiso : isolated set_order [p; q] t
                 = Ok (filter (fun i => iso_at g i = true) (set_order [p; q]))).
  { destruct (isolated set_order [p; q] t) as [r|e] eqn:Hr.
    - apply isolated_filter in Hr as (g' & Hload' & ->).
      rewrite Hload in Hload'. injection Hload' as <-. reflexivity.
    - unfold isolated in Hr. rewrite Hload in Hr. discriminate. }
  rewrite Hiso. unfold met in Hns. simpl in Hns.
  pose proof (set_order_perm [p; q]) as Hp. simpl in Hp. split.
  - intros Heq. apply number_eq_not_lt in Heq. rewrite Heq in Hns.
    eexists. split; [reflexivity|]. rewrite <- Hp.
    assert (Hall : forall i, i ∈ set_order [p; q] -> iso_at g i = true).
    { intros i Hi. rewrite Hp in Hi. unfold iso_at. rewrite Hns.
      repeat (apply elem_of_cons in Hi as [->|Hi]; [reflexivity|]).
      inversion Hi. }
    clear Hp Hiso. induction (set_order [p; q]) as [|i o IH]; [reflexivity|].
    rewrite filter_cons_True by (apply Hall; left).
    f_equiv. apply IH. intros j Hj. apply Hall. right. exact Hj.
  - intros Hlt. rewrite Hlt in Hns. f_equal.
    assert (Hnone : forall i, i ∈ set_order [p; q] -> iso_at g i <> true).
    { intros i Hi. rewrite Hp in Hi. unfold iso_at. rewrite Hns.
      repeat (apply elem_of_cons in Hi as [->|Hi]; [discriminate|]).
      inversion Hi. }
    clear Hp Hiso. induction (set_order [p; q]) as [|i o IH]; [reflexivity|].
    rewrite filter_cons_False by (apply Hnone; left).
    apply IH. intros j Hj. apply Hnone. right. exact Hj.
Qed.

(** ** Only the order on the prefixes of the input matters *)

Lemma for_old_nodes_names t new olds g g' :
  for_old_nodes t new olds g = Ok g' -> names g' = names g.
Proof.
  intros H. apply for_old_nodes_ok in H as [Hf _].
  apply fades_names, Hf.
Qed.

Lemma load_step_order_ext o1 o2 t g index tuple :
  o1 (names g ++ [tuple]) = o2 (names g ++ [tuple]) ->
  load_step o1 t g index tuple = load_step o2 t g index tuple.
Proof.
  intros Heq. unfold load_step.
  destruct (add_node g _) as [g1|e] eqn:Hadd; simpl; [|reflexivity].
  apply add_node_ok in Hadd as (Hns & _).
  unfold iter_nodes. rewrite Hns, fmap_app. simpl.
  fold (names g). rewrite Heq. reflexivity.
Qed.

Lemma load_step_names o t g index tuple g' :
  load_step o t g index tuple = Ok g' -> names g' = names g ++ [tuple].
Proof.
  intros H. apply load_step_ok in H as [Hf _].
  unfold names. rewrite (fades_names _ _ Hf), fmap_app. reflexivity.
Qed.

Lemma load_from_order_ext o1 o2 t index l g :
  (forall k, 0 < k <= length l ->
             o1 (names g ++ take k l) = o2 (names g ++ take k l)) ->
  load_from o1 t index l g = load_from o2 t index l g.
Proof.
  revert index g. induction l as [|tuple l IH]; intros index g Hext;
    [reflexivity|]. simpl.
  rewrite (load_step_order_ext o1 o2).
  2:{ apply (Hext 1). simpl. lia. }
  destruct (load_step o2 t g index tuple) as [g1|e] eqn:Hstep; simpl;
    [|reflexivity].
  apply IH. intros k Hk. rewrite (load_step_names _ _ _ _ _ _ Hstep).
  rewrite <- app_assoc. apply (Hext (S k)). simpl. lia.
Qed.

Lemma isolated_order_ext o1 o2 l t :
  (forall k, k <= length l -> o1 (take k l) = o2 (take k l)) ->
  isolated o1 l t = isolated o2 l t.
Proof.
  intros Hext. unfold isolated, load_graph.
  rewrite (load_from_order_ext o1 o2).
  2:{ intros k Hk. apply (Hext k). lia. }
  destruct (load_from o2 t 0 l Graph_init) as [g|e] eqn:Hload; simpl;
    [|reflexivity].
  unfold iter_nodes. fold (names g).
  rewrite (loaded_names o2 l t g Hload).
  specialize (Hext (length l) (le_n _)). rewrite firstn_all in Hext.
  rewrite Hext. reflexivity.
Qed.

Lemma Permutation_three (o : list nat) :
  o ≡ₚ [0; 1; 2] ->
  o ∈ [[0; 1; 2]; [1; 0; 2]; [1; 2; 0]; [0; 2; 1]; [2; 0; 1]; [2; 1; 0]].
Proof.
  intros Hp. apply Permutation_sym, permutations_Permutation in Hp.
  vm_compute in Hp. exact Hp.
Qed.

Lemma isolated_three set_order a b c t :
  (forall l, set_order l ≡ₚ seq 0 (length l)) ->
  isolated set_order [a; b; c] t
  = isolated (table_order (set_order [a; b]) (set_order [a; b; c]))
             [a; b; c] t.
Proof.
  intros Hperm. apply isolated_order_ext. intros k Hk. simpl in Hk.
  destruct k as [|[|[|[|k]]]]; simpl; try reflexivity; try lia.
  - specialize (Hperm []). simpl in Hperm.
    apply Permutation_nil_r in Hperm. rewrite Hperm. reflexivity.
  - specialize (Hperm [a]). simpl in Hperm.
    apply Permutation_singleton_r in Hperm. rewrite Hperm. reflexivity.
Qed.

Ltac refute_before :=
  match goal with
  | H : before _ _ _ |- _ =>
      destruct H as (i & j & Hi & Hj & Hij);
      destruct i as [|[|[|i]]]; try discriminate;
      destruct j as [|[|[|j]]]; try discriminate; lia
  end.

Ltac each_order Hperm a b c :=
  let H2 := fresh "H2" in
  let H3 := fresh "H3" in
  pose proof (Permutation_two _ (Hperm [a; b])) as H2;
  pose proof (Permutation_three _ (Hperm [a; b; c])) as H3;
  rewrite !(isolated_three _ a b c _ Hperm);
  repeat (apply elem_of_cons in H3 as [H3|H3]);
  [ .. | inversion H3 ];
  destruct H2 as [H2|H2]; rewrite H2, H3 in *.

(** C1 fails on the code.  The points (0,0) and (10,0) both lie at
    distance 5 from (5,0); with threshold 6 none of the three is
    isolated.  Whatever the order in which the set is iterated, the
    program reports one of the first two as isolated: once the new point
    has lost its flag, the loop no longer flags the old points it is
    close to. *)
Theorem C1_close_point_reported
    (set_order : list tuple -> list nat)
    (set_order_perm : forall l, set_order l ≡ₚ seq 0 (length l)) :
  let stars := [pt 0 0; pt 10 0; pt 5 0] in
  (forall i, i ∈ [0; 1] ->
     exists ti d, stars !! i = Some ti /\
       calculate_dist (Node_init (pt 5 0) 2) (Node_init ti i) = Ok d /\
       float_lt d (PyInt 6) = true) /\
  (isolated set_order stars (PyInt 6) = Ok [0] \/
   isolated set_order stars (PyInt 6) = Ok [1]).
Proof.
  intros stars. split.
  - intros i Hi.
    repeat (apply elem_of_cons in Hi as [->|Hi];
            [eexists _, _; split; [reflexivity|];
             split; vm_compute; reflexivity|]).
    inversion Hi.
  - unfold stars.
    each_order set_order_perm (pt 0 0) (pt 10 0) (pt 5 0);
      vm_compute; auto.
Qed.

(** C2 fails on the code, by the same defect.  With (0,0), (8,0) and
    then (5,0), a set that yields (0,0) before (8,0) flags index 1 at
    threshold 4 and returns it at threshold 6; with (3,0) as third point
    a set that yields (8,0) first does the same to index 0. *)
Theorem C2_larger_threshold_frees_point
    (set_order : list tuple -> list nat)
    (set_order_perm : forall l, set_order l ≡ₚ seq 0 (length l)) :
  (before (set_order [pt 0 0; pt 8 0; pt 5 0]) 0 1 ->
   isolated set_order [pt 0 0; pt 8 0; pt 5 0] (PyInt 4) = Ok [0] /\
   isolated set_order [pt 0 0; pt 8 0; pt 5 0] (PyInt 6) = Ok [1]) /\
  (before (set_order [pt 0 0; pt 8 0; pt 3 0]) 1 0 ->
   isolated set_order [pt 0 0; pt 8 0; pt 3 0] (PyInt 4) = Ok [1] /\
   isolated set_order [pt 0 0; pt 8 0; pt 3 0] (PyInt 6) = Ok [0]).
Proof.
  split; intros Hb.
  - each_order set_order_perm (pt 0 0) (pt 8 0) (pt 5 0);
      try refute_before; vm_compute; auto.
  - each_order set_order_perm (pt 0 0) (pt 8 0) (pt 3 0);
      try refute_before; vm_compute; auto.
Qed.

(** ** The claims at concrete inputs *)

Lemma C1_close_point_reported_witness :
  (forall l, insertion_order l ≡ₚ seq 0 (length l)) /\
  (isolated insertion_order [pt 0 0; pt 10 0; pt 5 0] (PyInt 6) = Ok [0] \/
   isolated insertion_order [pt 0 0; pt 10 0; pt 5 0] (PyInt 6) = Ok [1]).
Proof.
  split; [exact insertion_order_perm|].
  exact (proj2 (C1_close_point_reported insertion_order insertion_order_perm)).
Defined.

Lemma C2_larger_threshold_frees_point_witness :
  (forall l, reverse_order l ≡ₚ seq 0 (length l)) /\
  before (reverse_order [pt 0 0; pt 8 0; pt 3 0]) 1 0 /\
  isolated reverse_order [pt 0 0; pt 8 0; pt 3 0] (PyInt 4) = Ok [1] /\
  isolated reverse_order [pt 0 0; pt 8 0; pt 3 0] (PyInt 6) = Ok [0].
Proof.
  assert (Hb : before (reverse_order [pt 0 0; pt 8 0; pt 3 0]) 1 0).
  { exists 1, 2. repeat split. lia. }
  split; [exact reverse_order_perm|]. split; [exact Hb|].
  exact (proj2 (C2_larger_threshold_frees_point
                  reverse_order reverse_order_perm) Hb).
Defined.

Lemma C3_result_in_set_order_witness :
  (forall l, insertion_order l ≡ₚ seq 0 (length l)) /\
  isolated insertion_order [pt 0 0; pt 10 10; pt 0 1] (PyInt 2) = Ok [1] /\
  ([1] = filter (fun i => i ∈ [1])
           (insertion_order [pt 0 0; pt 10 10; pt 0 1]) /\
   (insertion_order [pt 0 0; pt 10 10; pt 0 1] = seq 0 3 -> ascending [1]) /\
   (forall r', isolated insertion_order [pt 0 0; pt 10 10; pt 0 1] (PyInt 2)
               = Ok r' -> r' = [1])).
Proof.
  assert (Hrun : isolated insertion_order [pt 0 0; pt 10 10; pt 0 1] (PyInt 2)
                 = Ok [1]) by (vm_compute; reflexivity).
  split; [exact insertion_order_perm|]. split; [exact Hrun|].
  exact (C3_result_in_set_order insertion_order
           [pt 0 0; pt 10 10; pt 0 1] (PyInt 2) [1] Hrun).
Defined.

Lemma C4_raises_iff_witness :
  (forall l, insertion_order l ≡ₚ seq 0 (length l)) /\
  (raises (isolated insertion_order [pt 1 1; pt 1 1] (PyInt 2)) <->
   has_duplicate [pt 1 1; pt 1 1] \/
   exists i j ti tj,
     i < j /\ [pt 1 1; pt 1 1] !! i = Some ti /\
     [pt 1 1; pt 1 1] !! j = Some tj /\
     calculate_dist (Node_init tj j) (Node_init ti i) = Err OverflowError).
Proof.
  split; [exact insertion_order_perm|].
  exact (proj1 (C4_raises_iff insertion_order insertion_order_perm
                  [pt 1 1; pt 1 1] (PyInt 2))).
Defined.

Lemma C5_threshold_boundary_witness :
  (forall l, insertion_order l ≡ₚ seq 0 (length l)) /\
  tuple_eqb (pt 0 0) (pt 3 4) = false /\
  calculate_dist (Node_init (pt 3 4) 1) (Node_init (pt 0 0) 0) = Ok five /\
  (number_eq_float (PyInt 5) five = true ->
   exists r, isolated insertion_order [pt 0 0; pt 3 4] (PyInt 5) = Ok r /\
             r ≡ₚ [0; 1]) /\
  (float_lt five (PyInt 5) = true ->
   isolated insertion_order [pt 0 0; pt 3 4] (PyInt 5) = Ok []).
Proof.
  assert (Hne : tuple_eqb (pt 0 0) (pt 3 4) = false) by reflexivity.
  assert (Hd : calculate_dist (Node_init (pt 3 4) 1) (Node_init (pt 0 0) 0)
               = Ok five) by (vm_compute; reflexivity).
  split; [exact insertion_order_perm|]. split; [exact Hne|].
  split; [exact Hd|].
  exact (C5_threshold_boundary insertion_order insertion_order_perm
           (pt 0 0) (pt 3 4) five (PyInt 5) Hne Hd).
Defined.

Lemma C9_index_preservation_witness :
  (forall l, insertion_order l ≡ₚ seq 0 (length l)) /\
  isolated insertion_order [pt 0 0; pt 10 10; pt 0 1] (PyInt 2) = Ok [1] /\
  NoDup [1] /\
  forall i, i ∈ [1] ->
    i < length [pt 0 0; pt 10 10; pt 0 1] /\
    exists tuple g n,
      [pt 0 0; pt 10 10; pt 0 1] !! i = Some tuple /\
      load_graph insertion_order [pt 0 0; pt 10 10; pt 0 1] (PyInt 2) = Ok g /\
      nodes g !! i = Some n /\ fade (Node_init tuple i) n /\
      index n = i /\ is_iso n = true.
Proof.
  assert (Hrun : isolated insertion_order [pt 0 0; pt 10 10; pt 0 1] (PyInt 2)
                 = Ok [1]) by (vm_compute; reflexivity).
  split; [exact insertion_order_perm|]. split; [exact Hrun|].
  exact (C9_index_preservation insertion_order insertion_order_perm
           [pt 0 0; pt 10 10; pt 0 1] (PyInt 2) [1] Hrun).
Defined.

Lemma C10_add_edge_never_raises_witness :
  (forall l, insertion_order l ≡ₚ seq 0 (length l)) /\
  isolated insertion_order [pt 1 1; pt 1 1] (PyInt 2) = Err DuplicateNode /\
  DuplicateNode <> SourceNotInGraph /\
  DuplicateNode <> DestinationNotInGraph /\ DuplicateNode <> KeyError.
Proof.
  assert (Hrun : isolated insertion_order [pt 1 1; pt 1 1] (PyInt 2)
                 = Err DuplicateNode) by (vm_compute; reflexivity).
  split; [exact insertion_order_perm|]. split; [exact Hrun|].
  exact (C10_add_edge_never_raises insertion_order insertion_order_perm
           [pt 1 1; pt 1 1] (PyInt 2) DuplicateNode Hrun).
Defined.

(** ** The scenarios of the specification, run on the model *)

Example empty_input (t : number) : isolated insertion_order [] t = Ok [].
Proof. reflexivity. Qed.

Example single_point (t : number) :
  isolated insertion_order [pt 0 0] t = Ok [0].
Proof. vm_compute. reflexivity. Qed.

Example scenario_A :
  isolated insertion_order [pt 0 0; pt 10 10; pt 0 1] (PyInt 2) = Ok [1] /\
  isolated reverse_order [pt 0 0; pt 10 10; pt 0 1] (PyInt 2) = Ok [1].
Proof. split; vm_compute; reflexivity. Qed.

Example scenario_B :
  isolated insertion_order [pt 0 0; pt 5 0; pt 10 0] (PyInt 6) = Ok [] /\
  isolated reverse_order [pt 0 0; pt 5 0; pt 10 0] (PyInt 6) = Ok [].
Proof. split; vm_compute; reflexivity. Qed.

Example duplicate_rejected (t : number) :
  isolated insertion_order [pt 1 1; pt 1 1] t = Err DuplicateNode.
Proof. vm_compute. reflexivity. Qed.

(** 3-4-5, also from coordinates with fractional parts: (0.9, 0) and
    (3.7, 4.2) are read as (0, 0) and (3, 4). *)
Example distance_truncated :
  calculate_dist (Node_init (9 # 10, 0 # 1)%Q 0)
                 (Node_init (37 # 10, 42 # 10)%Q 1) = Ok five /\
  float_lt five (PyInt 5) = false /\
  float_lt five (PyFloat five) = false /\
  float_lt five (PyInt 6) = true.
Proof. repeat split; vm_compute; reflexivity. Qed.

(** * Further properties of the code *)

(** ** Node equality *)

Lemma int_Qeq (c c' : Q) : (c == c')%Q -> int c = int c'.
Proof.
  destruct c as [n d], c' as [n' d']. unfold Qeq, int. simpl. intros H.
  rewrite <- (Z.quot_mul_cancel_r n (Z.pos d) (Z.pos d')) by lia.
  rewrite <- (Z.quot_mul_cancel_r n' (Z.pos d') (Z.pos d)) by lia.
  rewrite H. f_equal. lia.
Qed.

Lemma tuple_eqb_true (a b : tuple) :
  tuple_eqb a b = true <-> (a.1 == b.1)%Q /\ (a.2 == b.2)%Q.
Proof.
  unfold tuple_eqb. rewrite andb_true_iff, !Qeq_bool_iff. reflexivity.
Qed.

Lemma tuple_eqb_trans (a b c : tuple) :
  tuple_eqb a b = true -> tuple_eqb b c = true -> tuple_eqb a c = true.
Proof.
  rewrite !tuple_eqb_true. intros [H1 H2] [H3 H4].
  split; etransitivity; eauto.
Qed.

Lemma dist_of_eq_l (a b c : tuple) :
  tuple_eqb a b = true -> dist_of a c = dist_of b c.
Proof.
  rewrite tuple_eqb_true. intros [H1 H2]. unfold dist_of, sqdist.
  rewrite (int_Qeq _ _ H1), (int_Qeq _ _ H2). reflexivity.
Qed.

(** X1. [__eq__] is an equivalence on nodes that looks at the name only:
    it is reflexive, symmetric and transitive, [__ne__] is its negation,
    it is blind to the index and to the isolation flag, and two equal
    nodes are at the same distance from every node. *)
Theorem X1_node_eq_equivalence :
  (forall a, Node_eq a a = true) /\
  (forall a b, Node_eq a b = Node_eq b a) /\
  (forall a b c, Node_eq a b = true -> Node_eq b c = true ->
                 Node_eq a c = true) /\
  (forall a b, Node_ne a b = true <-> Node_eq a b = false) /\
  (forall nm i f j f' b, Node_eq (mkNode nm i f) b = Node_eq (mkNode nm j f') b) /\
  (forall a b c, Node_eq a b = true ->
                 calculate_dist a c = calculate_dist b c).
Proof.
  repeat split.
  - apply Node_eq_refl.
  - intros a b. apply tuple_eqb_sym.
  - intros a b c. apply tuple_eqb_trans.
  - unfold Node_ne. intros H. apply negb_true_iff, H.
  - unfold Node_ne. intros H. apply negb_true_iff, H.
  - intros a b c Hab. rewrite !calculate_dist_names.
    apply dist_of_eq_l, Hab.
Qed.

(** ** Graph operations *)

Lemma has_node_app (g : Graph) (extra : list Node) (m : Node) :
  has_node (mkGraph (nodes g ++ extra) (edges g)) m
  = has_node g m || existsb (Node_eq m) extra.
Proof. unfold has_node. simpl. apply existsb_app. Qed.

(** X2. Insertion and lookup round trip.  After a successful
    [add_node] the node is the last member of the set, [has_node] finds
    it, it has an empty list of edges, and every other answer of
    [has_node] and [get_edges] and every other member is as before. *)
Theorem X2_add_node_then_lookup (g g' : Graph) (node : Node) :
  add_node g node = Ok g' ->
  has_node g' node = true /\
  nodes g' !! length (nodes g) = Some node /\
  get_edges g' (length (nodes g)) = Ok [] /\
  (forall m, has_node g' m = has_node g m || Node_eq m node) /\
  (forall r, r < length (nodes g) ->
             nodes g' !! r = nodes g !! r /\ get_edges g' r = get_edges g r).
Proof.
  unfold add_node. destruct (has_node g node) eqn:Hnew; [discriminate|].
  intros [= <-].
  assert (Hm : forall m, has_node (mkGraph (nodes g ++ [node])
                            (<[length (nodes g):=[]]> (edges g))) m
                         = has_node g m || Node_eq m node).
  { intros m. unfold has_node. simpl. rewrite existsb_app. simpl.
    rewrite orb_false_r. reflexivity. }
  repeat split.
  - rewrite Hm, Node_eq_refl. apply orb_true_r.
  - simpl. apply list_lookup_middle. reflexivity.
  - unfold get_edges. simpl. rewrite lookup_insert_eq. reflexivity.
  - exact Hm.
  - simpl. apply lookup_app_l. exact H.
  - unfold get_edges. simpl. rewrite lookup_insert_ne by lia. reflexivity.
Qed.

(** X3. [add_node] fails exactly when the set already holds a node of
    the same name, whatever the index and the flag of the two nodes; the
    error is then the duplicate [ValueError]. *)
Theorem X3_add_node_rejects_same_name (g : Graph) (nm : tuple) (i : nat)
    (f : bool) :
  (raises (add_node g (mkNode nm i f)) <->
   exists m, m ∈ nodes g /\ tuple_eqb nm (name m) = true) /\
  (forall e, add_node g (mkNode nm i f) = Err e -> e = DuplicateNode).
Proof.
  split.
  - unfold add_node.
    destruct (has_node g (mkNode nm i f)) eqn:Hh.
    + split; [|intros _; eexists; reflexivity]. intros _.
      unfold has_node in Hh. apply existsb_exists in Hh as (m & Hin & Heq).
      exists m. split; [apply list_elem_of_In, Hin | exact Heq].
    + split; [intros [e He]; discriminate|].
      intros (m & Hin & Heq). exfalso.
      assert (has_node g (mkNode nm i f) = true); [|congruence].
      apply existsb_exists. exists m.
      split; [apply list_elem_of_In, Hin | exact Heq].
  - intros e He. apply add_node_error in He as [-> _]. reflexivity.
Qed.

(** X4. A successful [add_edge] stores the edge once, at the end of the
    list of its source, and nowhere else: the nodes and the lists of all
    other nodes, the destination's included, stay as they were. *)
Theorem X4_add_edge_effect (g g' : Graph) (e : WeightedEdge) :
  add_edge g e = Ok g' ->
  nodes g' = nodes g /\
  (exists es, get_edges g (src e) = Ok es /\
              get_edges g' (src e) = Ok (es ++ [e])) /\
  (forall r, r <> src e -> get_edges g' r = get_edges g r).
Proof.
  unfold add_edge, get_src, get_dest, get_dist.
  destruct (in_nodes g (src e)); simpl; [|discriminate].
  destruct (in_nodes g (dest e)); simpl; [|discriminate].
  destruct (edges g !! src e) as [es|] eqn:Hes; [|discriminate].
  intros [= <-]. repeat split.
  - exists es. unfold get_edges. simpl. rewrite Hes, lookup_insert_eq.
    destruct e. auto.
  - intros r Hr. unfold get_edges. simpl.
    rewrite lookup_insert_ne by auto. reflexivity.
Qed.

(** X5. The errors of [add_edge].  It raises "Source node not in graph"
    exactly when the source is not a member, also when the destination is
    missing too; it raises "Destination node not in graph" exactly when
    the source is a member and the destination is not; between two
    members of a graph whose members are all keys of the edge dictionary
    it succeeds. *)
Theorem X5_add_edge_errors (g : Graph) (e : WeightedEdge) :
  (add_edge g e = Err SourceNotInGraph <-> ~ src e < length (nodes g)) /\
  (add_edge g e = Err DestinationNotInGraph <->
   src e < length (nodes g) /\ ~ dest e < length (nodes g)) /\
  (keyed g -> src e < length (nodes g) -> dest e < length (nodes g) ->
   exists g', add_edge g e = Ok g').
Proof.
  pose proof (in_nodes_true g (src e)) as Hs.
  pose proof (in_nodes_true g (dest e)) as Hd.
  unfold add_edge, get_src, get_dest, get_dist.
  destruct (in_nodes g (src e)) eqn:Es; simpl.
  - assert (Hsrc : src e < length (nodes g)) by (apply Hs; reflexivity).
    destruct (in_nodes g (dest e)) eqn:Ed; simpl.
    + assert (Hdest : dest e < length (nodes g)) by (apply Hd; reflexivity).
      split; [|split].
      * split; [destruct (edges g !! src e); discriminate | tauto].
      * split; [destruct (edges g !! src e); discriminate | tauto].
      * intros Hk _ _. destruct (Hk _ Hsrc) as [es ->]. eauto.
    + assert (Hdest : ~ dest e < length (nodes g)).
      { intros Hlt. apply Hd in Hlt. discriminate. }
      split; [|split].
      * split; [discriminate | tauto].
      * split; [auto | reflexivity].
      * tauto.
  - assert (Hsrc : ~ src e < length (nodes g)).
    { intros Hlt. apply Hs in Hlt. discriminate. }
    split; [|split].
    + split; [auto | reflexivity].
    + split; [discriminate | tauto].
    + tauto.
Qed.

(** ** What the flags mean *)

Lemma close_closeb (t : number) (a b : tuple) :
  close t a b <-> closeb t a b = true.
Proof.
  unfold close, closeb. split.
  - intros (d & -> & Hlt). exact Hlt.
  - destruct (dist_of a b) as [d|e]; [eauto | discriminate].
Qed.

Lemma closeb_sym (t : number) (a b : tuple) : closeb t a b = closeb t b a.
Proof. unfold closeb. rewrite dist_of_sym. reflexivity. Qed.

Lemma close_sym (t : number) (a b : tuple) : close t a b -> close t b a.
Proof. rewrite !close_closeb, closeb_sym. auto. Qed.

Lemma iso_at_names (g : Graph) (r : nat) :
  iso_at g r = true -> exists tr, names g !! r = Some tr.
Proof.
  unfold iso_at, names. rewrite list_lookup_fmap.
  destruct (nodes g !! r); [eauto | discriminate].
Qed.

Lemma flag_alter (ns : list Node) (a r : nat) :
  match alter change_iso a ns !! r with
  | Some n => is_iso n
  | None => false
  end
  = match ns !! r with
    | Some n => is_iso n
    | None => false
    end && negb (bool_decide (r = a)).
Proof.
  destruct (decide (r = a)) as [->|Hne].
  - rewrite list_lookup_alter_eq, bool_decide_true by reflexivity.
    destruct (ns !! a); simpl; [apply eq_sym, andb_false_r | reflexivity].
  - rewrite list_lookup_alter_ne, bool_decide_false by auto.
    simpl. rewrite andb_true_r. reflexivity.
Qed.

Lemma iso_at_met (t : number) (g g' : Graph) (new old r : nat) (d : float) :
  nodes g' = met t new old d (nodes g) ->
  iso_at g' r
  = iso_at g r &&
    negb (iso_at g new && float_lt d t &&
          (bool_decide (r = old) || bool_decide (r = new))).
Proof.
  intros Hns. unfold iso_at. rewrite Hns. unfold met.
  destruct (nodes g !! new) as [n|] eqn:Hn.
  - destruct (is_iso n && float_lt d t) eqn:Hm; simpl.
    + rewrite !flag_alter.
      destruct (nodes g !! r) as [x|]; [destruct (is_iso x)|];
        destruct (bool_decide (r = old)), (bool_decide (r = new));
        reflexivity.
    + apply eq_sym, andb_true_r.
  - simpl. apply eq_sym, andb_true_r.
Qed.

(** The flags after one visit, as a function of the flags before. *)
Lemma visit_flags t new g old g' tn to :
  keyed g -> names g !! old = Some to -> names g !! new = Some tn ->
  visit t new g old = Ok g' ->
  keyed g' /\ names g' = names g /\
  forall r, iso_at g' r
            = iso_at g r &&
              negb (negb (tuple_eqb to tn) && iso_at g new && closeb t tn to &&
                    (bool_decide (r = old) || bool_decide (r = new))).
Proof.
  intros Hk Hold Hnew Hv.
  unfold names in Hold, Hnew. rewrite list_lookup_fmap in Hold, Hnew.
  destruct (nodes g !! old) as [o|] eqn:Ho; [|discriminate].
  destruct (nodes g !! new) as [n|] eqn:Hn; [|discriminate].
  injection Hold as <-. injection Hnew as <-.
  pose proof (visit_spec t new g old o n Hk Ho Hn) as Hs.
  destruct (tuple_eqb (name o) (name n)); simpl.
  - rewrite Hs in Hv. injection Hv as <-.
    repeat split; auto. intros r. apply eq_sym, andb_true_r.
  - unfold closeb. destruct (dist_of (name n) (name o)) as [d|e].
    + destruct Hs as (g1 & Hv1 & Hns & Hk1). rewrite Hv1 in Hv.
      injection Hv as <-. repeat split; auto.
      * unfold names. rewrite Hns. apply fades_names, met_fades.
      * intros r. apply (iso_at_met t g g1 new old r d Hns).
    + congruence.
Qed.

Lemma fades_iso_at (g g' : Graph) (extra : list Node) (r : nat) :
  Forall2 fade (nodes g ++ extra) (nodes g') -> r < length (nodes g) ->
  iso_at g' r = true -> iso_at g r = true.
Proof.
  intros Hf Hr. unfold iso_at.
  destruct (lookup_lt_is_Some_2 _ _ Hr) as [n Hn]. rewrite Hn.
  destruct (Forall2_lookup_l _ _ _ r n Hf) as (n' & -> & _ & _ & Hflag).
  { apply lookup_app_l_Some, Hn. }
  destruct (is_iso n); [reflexivity|]. intros H. rewrite Hflag in H; auto.
Qed.

Lemma for_old_nodes_cons_inv t new old olds g g' tn :
  keyed g -> names g !! new = Some tn -> old < length (names g) ->
  for_old_nodes t new (old :: olds) g = Ok g' ->
  exists g1 to,
    names g !! old = Some to /\ keyed g1 /\ names g1 = names g /\
    (forall r, iso_at g1 r
               = iso_at g r &&
                 negb (negb (tuple_eqb to tn) && iso_at g new &&
                       closeb t tn to &&
                       (bool_decide (r = old) || bool_decide (r = new)))) /\
    for_old_nodes t new olds g1 = Ok g'.
Proof.
  intros Hk Hnew Hold Hrun. simpl in Hrun.
  destruct (visit t new g old) as [g1|] eqn:Hv; simpl in Hrun; [|discriminate].
  destruct (lookup_lt_is_Some_2 _ _ Hold) as [to Hto].
  destruct (visit_flags t new g old g1 tn to Hk Hto Hnew Hv)
    as (Hk1 & Hnames & Hflags).
  exists g1, to. auto.
Qed.

Lemma for_old_nodes_mono t new olds g g' r :
  for_old_nodes t new olds g = Ok g' ->
  iso_at g' r = true -> iso_at g r = true.
Proof.
  intros Hrun Hr. apply for_old_nodes_ok in Hrun as [Hf _].
  eapply (fades_iso_at g g' []); [rewrite app_nil_r; exact Hf | | exact Hr].
  apply iso_at_names in Hr as [tr Htr]. apply lookup_lt_Some in Htr.
  rewrite names_length, <- (Forall2_length _ _ _ Hf) in Htr. exact Htr.
Qed.

(** A flag cleared by the inner loop has a close point to show. *)
Lemma for_old_nodes_sound t new olds g g' tn r :
  keyed g -> names g !! new = Some tn ->
  Forall (fun o => o < length (names g)) olds ->
  for_old_nodes t new olds g = Ok g' ->
  iso_at g r = true -> iso_at g' r = false ->
  exists r' tr tr', r' <> r /\ names g !! r = Some tr /\
                    names g !! r' = Some tr' /\ close t tr tr'.
Proof.
  revert g. induction olds as [|old olds IH]; intros g Hk Hnew Hrange Hrun Hb Ha.
  - injection Hrun as <-. congruence.
  - apply Forall_cons in Hrange as [Hold Hrange].
    destruct (for_old_nodes_cons_inv _ _ _ _ _ _ _ Hk Hnew Hold Hrun)
      as (g1 & to & Hto & Hk1 & Hnames & Hflags & Hrest).
    destruct (iso_at g1 r) eqn:H1.
    + rewrite <- Hnames. apply (IH g1); auto; rewrite Hnames; auto.
    + rewrite Hflags, Hb in H1. simpl in H1. apply negb_false_iff in H1.
      apply andb_true_iff in H1 as [H1 Hwho].
      apply andb_true_iff in H1 as [H1 Hclose].
      apply andb_true_iff in H1 as [Hne _].
      apply negb_true_iff in Hne. apply close_closeb in Hclose.
      assert (Hdiff : old <> new).
      { intros ->. rewrite Hto in Hnew. injection Hnew as ->.
        rewrite tuple_eqb_refl in Hne. discriminate. }
      apply orb_true_iff in Hwho as [Hw|Hw]; apply bool_decide_eq_true in Hw;
        subst r.
      * exists new, to, tn. repeat split; auto. apply close_sym, Hclose.
      * exists old, tn, to. repeat split; auto.
Qed.

(** If the new node keeps its flag, no member of another name that the
    loop visits is close to it. *)
Lemma for_old_nodes_kept t new olds g g' tn :
  keyed g -> names g !! new = Some tn ->
  Forall (fun o => o < length (names g)) olds ->
  for_old_nodes t new olds g = Ok g' -> iso_at g' new = true ->
  forall old to, old ∈ olds -> names g !! old = Some to ->
                 tuple_eqb to tn = false -> closeb t tn to = false.
Proof.
  revert g. induction olds as [|old0 olds IH];
    intros g Hk Hnew Hrange Hrun Hkept old to Hin Hto Hne.
  - inversion Hin.
  - apply Forall_cons in Hrange as [Hold Hrange].
    destruct (for_old_nodes_cons_inv _ _ _ _ _ _ _ Hk Hnew Hold Hrun)
      as (g1 & to0 & Hto0 & Hk1 & Hnames & Hflags & Hrest).
    pose proof (for_old_nodes_mono _ _ _ _ _ _ Hrest Hkept) as H1.
    rewrite Hflags in H1. apply andb_true_iff in H1 as [Hg Hmark].
    rewrite Hg in Hmark. rewrite (bool_decide_true (new = new)) in Hmark
      by reflexivity.
    rewrite orb_true_r, andb_true_r in Hmark. simpl in Hmark.
    apply elem_of_cons in Hin as [->|Hin].
    + rewrite Hto in Hto0. injection Hto0 as <-.
      rewrite Hne in Hmark. simpl in Hmark.
      apply negb_true_iff in Hmark. exact Hmark.
    + eapply (IH g1);
        [ exact Hk1 | rewrite Hnames; exact Hnew
        | rewrite Hnames; exact Hrange | exact Hrest | exact Hkept
        | exact Hin | rewrite Hnames; exact Hto | exact Hne ].
Qed.

(** If the new node comes with its flag set and one member is the only
    one close to it among those the loop visits, that member loses its
    flag. *)
Lemma for_old_nodes_single t new olds g g' tn j tj :
  keyed g -> names g !! new = Some tn ->
  Forall (fun o => o < length (names g)) olds ->
  for_old_nodes t new olds g = Ok g' ->
  iso_at g new = true -> j ∈ olds -> names g !! j = Some tj ->
  tuple_eqb tj tn = false -> closeb t tn tj = true ->
  (forall old to, old ∈ olds -> old <> j -> names g !! old = Some to ->
                  tuple_eqb to tn = false -> closeb t tn to = false) ->
  iso_at g' j = false.
Proof.
  revert g. induction olds as [|old0 olds IH];
    intros g Hk Hnew Hrange Hrun Hset Hin Htj Hne Hclose Honly.
  - inversion Hin.
  - apply Forall_cons in Hrange as [Hold Hrange].
    destruct (for_old_nodes_cons_inv _ _ _ _ _ _ _ Hk Hnew Hold Hrun)
      as (g1 & to0 & Hto0 & Hk1 & Hnames & Hflags & Hrest).
    destruct (decide (old0 = j)) as [->|Hother].
    + rewrite Htj in Hto0. injection Hto0 as <-.
      assert (H1 : iso_at g1 j = false).
      { rewrite Hflags, Hne, Hset, Hclose.
        rewrite (bool_decide_true (j = j)) by reflexivity.
        simpl. apply andb_false_r. }
      destruct (iso_at g' j) eqn:Hj; [|reflexivity].
      apply (for_old_nodes_mono _ _ _ _ _ _ Hrest) in Hj. congruence.
    + assert (Hsame : forall r, iso_at g1 r = iso_at g r).
      { intros r. rewrite Hflags.
        destruct (tuple_eqb to0 tn) eqn:He; simpl;
          [apply andb_true_r|].
        rewrite (Honly old0 to0) by (auto; left).
        rewrite andb_false_r. simpl. apply andb_true_r. }
      apply elem_of_cons in Hin as [->|Hin]; [congruence|].
      eapply (IH g1);
        [ exact Hk1 | rewrite Hnames; exact Hnew
        | rewrite Hnames; exact Hrange | exact Hrest
        | rewrite Hsame; exact Hset | exact Hin
        | rewrite Hnames; exact Htj | exact Hne | exact Hclose | ].
      intros old to Ho Hd Hl. rewrite Hnames in Hl.
      apply (Honly old to); auto. right. exact Ho.
Qed.

Lemma flags_inv_init (t : number) : flags_inv t Graph_init.
Proof.
  split; [apply keyed_init|].
  repeat split; intros *; intros; discriminate.
Qed.

Section Flags.

Variable set_order : list tuple -> list nat.
Hypothesis set_order_perm : forall l, set_order l ≡ₚ seq 0 (length l).

Lemma load_step_inv t g index tuple g2 :
  load_step set_order t g index tuple = Ok g2 ->
  exists g1,
    nodes g1 = nodes g ++ [Node_init tuple index] /\
    (keyed g -> keyed g1) /\
    (forall r to, names g !! r = Some to -> tuple_eqb tuple to = false) /\
    for_old_nodes t (length (nodes g)) (iter_nodes set_order g1) g1 = Ok g2.
Proof.
  unfold load_step.
  destruct (add_node g _) as [g1|] eqn:Hadd; simpl; [|discriminate].
  apply add_node_ok in Hadd as (Hns & Hnew & Hk). intros Hrun.
  exists g1. repeat split; auto.
  - intros r to Hr. destruct (tuple_eqb tuple to) eqn:Heq; [|reflexivity].
    rewrite <- Hnew. symmetry. apply has_node_true. eauto.
  - rewrite Hns, length_app in Hrun. simpl in Hrun.
    replace (Nat.pred (length (nodes g) + 1)) with (length (nodes g)) in Hrun
      by lia.
    exact Hrun.
Qed.

Lemma load_step_flags t g index tuple g2 :
  flags_inv t g -> load_step set_order t g index tuple = Ok g2 ->
  flags_inv t g2.
Proof.
  intros (Hk & Hdist & Hsound & Hearlier & Hsingle) Hstep.
  destruct (load_step_inv _ _ _ _ _ Hstep) as (g1 & Hns & Hk1 & Hfresh & Hrun).
  specialize (Hk1 Hk).
  set (len := length (nodes g)) in *.
  assert (Hn1 : names g1 = names g ++ [tuple]).
  { unfold names. rewrite Hns, fmap_app. reflexivity. }
  assert (Hn2 : names g2 = names g ++ [tuple]).
  { rewrite <- Hn1. eapply for_old_nodes_names, Hrun. }
  assert (Hlen : length (names g) = len) by apply names_length.
  assert (Hnew1 : names g1 !! len = Some tuple).
  { rewrite Hn1, <- Hlen. apply list_lookup_middle. reflexivity. }
  assert (Hrange : Forall (fun o => o < length (names g1))
                     (iter_nodes set_order g1)).
  { rewrite names_length. apply iter_nodes_range, set_order_perm. }
  assert (Hlook : forall i ti, (names g ++ [tuple]) !! i = Some ti ->
            (i < len /\ names g !! i = Some ti) \/ (i = len /\ ti = tuple)).
  { intros i ti Hi. apply lookup_app_Some in Hi as [Hi|[Hge Hi]].
    - left. split; [|exact Hi]. apply lookup_lt_Some in Hi. lia.
    - right. destruct (i - length (names g)) eqn:E; [|discriminate].
      injection Hi as <-. split; [lia | reflexivity]. }
  assert (Hiso1 : forall r, r <> len -> iso_at g1 r = iso_at g r).
  { intros r Hr. unfold iso_at. rewrite Hns.
    destruct (decide (r < len)).
    - rewrite lookup_app_l by exact l. reflexivity.
    - rewrite !lookup_ge_None_2; [reflexivity | fold len; lia |].
      rewrite length_app. simpl. fold len. lia. }
  assert (Hiso1n : iso_at g1 len = true).
  { unfold iso_at. rewrite Hns. unfold len.
    rewrite list_lookup_middle by reflexivity. reflexivity. }
  assert (Hmono : forall r, iso_at g2 r = true -> iso_at g1 r = true).
  { intros r. eapply for_old_nodes_mono, Hrun. }
  assert (Hk2 : keyed g2).
  { apply for_old_nodes_ok in Hrun as [_ Hk2]. auto. }
  split; [exact Hk2|]. split; [|split; [|split]].
  - (* the names stay pairwise different *)
    intros i j ti tj Hi Hj Heq. rewrite Hn2 in Hi, Hj.
    destruct (Hlook _ _ Hi) as [[Hil Hi']|[-> ->]];
      destruct (Hlook _ _ Hj) as [[Hjl Hj']|[-> ->]].
    + eapply Hdist; eauto.
    + rewrite tuple_eqb_sym, (Hfresh _ _ Hi') in Heq. discriminate.
    + rewrite (Hfresh _ _ Hj') in Heq. discriminate.
    + reflexivity.
  - (* a cleared flag has a witness *)
    intros r tr Hr Hoff. rewrite Hn2 in Hr.
    destruct (iso_at g1 r) eqn:H1.
    + destruct (for_old_nodes_sound t len _ g1 g2 tuple r
                  Hk1 Hnew1 Hrange Hrun H1 Hoff)
        as (r' & tr0 & tr' & Hne & Hr0 & Hr' & Hc).
      rewrite Hn1 in Hr0, Hr'. rewrite Hr in Hr0. injection Hr0 as <-.
      exists r', tr'. rewrite Hn2. auto.
    + destruct (Hlook _ _ Hr) as [[Hrl Hr']|[-> ->]]; [|congruence].
      rewrite Hiso1 in H1 by lia.
      destruct (Hsound r tr Hr' H1) as (r' & tr' & Hne & Hr'' & Hc).
      exists r', tr'. rewrite Hn2. repeat split; auto.
      apply lookup_app_l_Some, Hr''.
  - (* a node with its flag set has no close earlier node *)
    intros i j ti tj Hij Hi Hj Hon. rewrite Hn2 in Hi, Hj.
    pose proof (Hmono _ Hon) as H1.
    destruct (Hlook _ _ Hj) as [[Hjl Hj']|[-> ->]].
    + destruct (Hlook _ _ Hi) as [[Hil Hi']|[-> ->]]; [|lia].
      rewrite Hiso1 in H1 by lia.
      exact (Hearlier i j ti tj Hij Hi' Hj' H1).
    + destruct (Hlook _ _ Hi) as [[Hil Hi']|[Hil _]]; [|lia].
      rewrite close_closeb.
      rewrite (for_old_nodes_kept t len _ g1 g2 tuple
                 Hk1 Hnew1 Hrange Hrun Hon i ti); [discriminate | | |].
      * apply iter_nodes_elem; [exact set_order_perm|].
        rewrite Hns, length_app. simpl. fold len. lia.
      * rewrite Hn1. apply lookup_app_l_Some, Hi'.
      * rewrite tuple_eqb_sym. eauto.
  - (* the only close earlier node of a later node is flagged *)
    intros j k tj tk Hjk Hj Hkk Hc Honly. rewrite Hn2 in Hj, Hkk.
    destruct (iso_at g2 j) eqn:H2; [|reflexivity]. exfalso.
    pose proof (Hmono _ H2) as H1.
    destruct (Hlook _ _ Hj) as [[Hjl Hj']|[-> _]];
      destruct (Hlook _ _ Hkk) as [[Hkl Hk']|[-> ->]]; try lia.
    + rewrite Hiso1 in H1 by lia.
      rewrite (Hsingle j k tj tk Hjk Hj' Hk' Hc) in H1; [discriminate|].
      intros i ti Hik Hi Hci. apply (Honly i ti Hik); [|exact Hci].
      rewrite Hn2. apply lookup_app_l_Some, Hi.
    + rewrite (for_old_nodes_single t len _ g1 g2 tuple j tj
                 Hk1 Hnew1 Hrange Hrun Hiso1n) in H2; [discriminate | | | | |].
      * apply iter_nodes_elem; [exact set_order_perm|].
        rewrite Hns, length_app. simpl. fold len. lia.
      * rewrite Hn1. apply lookup_app_l_Some, Hj'.
      * rewrite tuple_eqb_sym. eauto.
      * apply close_closeb, Hc.
      * intros old to Hin Hne Hto Hneq.
        destruct (closeb t tuple to) eqn:Hcl; [|reflexivity]. exfalso.
        rewrite Hn1 in Hto.
        destruct (Hlook _ _ Hto) as [[Hol Ho']|[-> ->]].
        -- apply Hne, (Honly old to Hol).
           ++ rewrite Hn2. apply lookup_app_l_Some, Ho'.
           ++ apply close_closeb, Hcl.
        -- rewrite tuple_eqb_refl in Hneq. discriminate.
Qed.

Lemma load_from_flags t index l g g' :
  flags_inv t g -> load_from set_order t index l g = Ok g' -> flags_inv t g'.
Proof.
  revert index g. induction l as [|tuple l IH]; intros index g Hinv; simpl.
  - intros [= <-]. exact Hinv.
  - destruct (load_step _ t g index tuple) as [g1|] eqn:Hstep; simpl;
      [|discriminate].
    apply IH. eapply load_step_flags; eauto.
Qed.

Lemma load_graph_flags l t g :
  load_graph set_order l t = Ok g -> flags_inv t g.
Proof. apply load_from_flags, flags_inv_init. Qed.

(** An index is returned exactly when the flag at that position is set. *)
Lemma isolated_elem l t r g i :
  isolated set_order l t = Ok r -> load_graph set_order l t = Ok g ->
  i ∈ r <-> iso_at g i = true.
Proof.
  intros Hiso Hload. apply isolated_filter in Hiso as (g' & Hload' & ->).
  rewrite Hload in Hload'. injection Hload' as <-.
  rewrite list_elem_of_filter. split; [tauto|]. intros Hi. split; [exact Hi|].
  rewrite set_order_perm. apply elem_of_seq.
  apply iso_at_names in Hi as [ti Hti]. apply lookup_lt_Some in Hti.
  rewrite (loaded_names _ _ _ _ Hload) in Hti. lia.
Qed.

End Flags.

Lemma filter_all (P : nat -> Prop) `{forall i, Decision (P i)} (l : list nat) :
  (forall i, i ∈ l -> P i) -> filter P l = l.
Proof.
  induction l as [|i l IH]; intros Hall; [reflexivity|].
  rewrite filter_cons_True by (apply Hall; left).
  f_equal. apply IH. intros j Hj. apply Hall. right. exact Hj.
Qed.

(** The square root of a float is never a negative number. *)
Lemma SFsqrt_sign (x : float) :
  match SFsqrt prec emax x with
  | S754_finite s _ _ | S754_infinity s => s = false
  | _ => True
  end.
Proof.
  destruct x as [s|[|]| |[|] m e]; simpl; auto.
  destruct (SFsqrt_core_binary prec emax (Z.pos m) e) as [[mz ez] lz].
  unfold binary_round_aux.
  destruct (shr_fexp prec emax mz ez lz) as [mrs' e'].
  destruct (shr_fexp prec emax _ e' loc_Exact) as [mrs'' e''].
  destruct (shr_m mrs''); auto.
  destruct (e'' <=? emax - prec)%Z; reflexivity.
Qed.

Lemma dist_of_sign (a b : tuple) (d : float) :
  dist_of a b = Ok d ->
  match d with
  | S754_finite s _ _ | S754_infinity s => s = false
  | _ => True
  end.
Proof.
  unfold dist_of. rewrite math_sqrt_nonneg by apply sqdist_nonneg.
  destruct (float_of_int (sqdist a b)); [|discriminate].
  intros [= <-]. apply SFsqrt_sign.
Qed.

Lemma never_below_closeb (t : number) (a b : tuple) :
  never_below t -> closeb t a b = false.
Proof.
  intros Ht. unfold closeb.
  destruct (dist_of a b) as [d|] eqn:Hd; [|reflexivity].
  apply dist_of_sign in Hd.
  destruct t as [z|g]; simpl in *.
  - destruct d as [s|s| |s m e]; simpl; subst; try reflexivity.
    + apply Z.ltb_ge. exact Ht.
    + unfold cond_Zopp. destruct (0 <=? e)%Z eqn:He; apply Z.ltb_ge.
      * pose proof (Z.pow_nonneg 2 e ltac:(lia)).
        apply Z.le_trans with 0%Z; [exact Ht|].
        apply Z.mul_nonneg_nonneg; lia.
      * pose proof (Z.pow_nonneg 2 (- e) ltac:(lia)).
        apply Z.le_trans with 0%Z; [|lia].
        apply Z.mul_nonpos_nonneg; lia.
  - unfold SFltb.
    destruct g as [sg|sg| |sg mg eg]; simpl in Ht; subst;
      destruct d as [s|s| |s m e]; simpl in *; subst; reflexivity.
Qed.

Section Meaning.

Variable set_order : list tuple -> list nat.
Hypothesis set_order_perm : forall l, set_order l ≡ₚ seq 0 (length l).

(** X6. A point that is left out of the result has another point closer
    to it than the threshold: a truly isolated point is always reported. *)
Theorem X6_unreported_has_close_point (l : list tuple) (t : number)
    (r : list nat) (i : nat) (ti : tuple) :
  isolated set_order l t = Ok r -> l !! i = Some ti -> i ∉ r ->
  exists i' ti', i' <> i /\ l !! i' = Some ti' /\ close t ti ti'.
Proof.
  intros Hiso Hi Hout.
  destruct (isolated_filter _ _ _ _ Hiso) as (g & Hload & _).
  destruct (load_graph_flags _ set_order_perm _ _ _ Hload)
    as (_ & _ & Hsound & _).
  pose proof (loaded_names _ _ _ _ Hload) as Hnames.
  unfold flags_sound in Hsound. rewrite Hnames in Hsound.
  apply (Hsound i ti Hi).
  destruct (iso_at g i) eqn:Hflag; [|reflexivity].
  exfalso. apply Hout.
  apply (isolated_elem _ set_order_perm _ _ _ _ _ Hiso Hload), Hflag.
Qed.

(** X7. A reported point is not closer than the threshold to any point
    that comes before it in the input. *)
Theorem X7_reported_far_from_earlier (l : list tuple) (t : number)
    (r : list nat) (i i' : nat) (ti ti' : tuple) :
  isolated set_order l t = Ok r -> i ∈ r -> i' < i ->
  l !! i = Some ti -> l !! i' = Some ti' -> ~ close t ti ti'.
Proof.
  intros Hiso Hin Hlt Hi Hi'.
  destruct (isolated_filter _ _ _ _ Hiso) as (g & Hload & _).
  destruct (load_graph_flags _ set_order_perm _ _ _ Hload)
    as (_ & _ & _ & Hearlier & _).
  pose proof (loaded_names _ _ _ _ Hload) as Hnames.
  unfold flags_earlier in Hearlier. rewrite Hnames in Hearlier.
  apply (Hearlier i' i ti' ti Hlt Hi' Hi).
  apply (isolated_elem _ set_order_perm _ _ _ _ _ Hiso Hload), Hin.
Qed.

(** X8. When no point has two earlier points closer to it than the
    threshold, the result is exact: an index is reported if and only if
    no other point is closer to its point than the threshold. *)
Theorem X8_exact_with_single_close_earlier (l : list tuple) (t : number)
    (r : list nat) :
  (forall j j' k tj tj' tk, j < k -> j' < k ->
     l !! j = Some tj -> l !! j' = Some tj' -> l !! k = Some tk ->
     close t tk tj -> close t tk tj' -> j = j') ->
  isolated set_order l t = Ok r ->
  forall i, i ∈ r <->
    exists ti, l !! i = Some ti /\
      forall i' ti', i' <> i -> l !! i' = Some ti' -> ~ close t ti ti'.
Proof.
  intros Hone Hiso i.
  destruct (isolated_filter _ _ _ _ Hiso) as (g & Hload & _).
  destruct (load_graph_flags _ set_order_perm _ _ _ Hload)
    as (_ & _ & Hsound & Hearlier & Hsingle).
  pose proof (loaded_names _ _ _ _ Hload) as Hnames.
  unfold flags_sound, flags_earlier, flags_single in *.
  rewrite Hnames in *.
  rewrite (isolated_elem _ set_order_perm _ _ _ _ _ Hiso Hload). split.
  - intros Hflag. destruct (iso_at_names _ _ Hflag) as [ti Hi].
    rewrite Hnames in Hi. exists ti. split; [exact Hi|].
    intros i' ti' Hne Hi' Hc.
    destruct (decide (i' < i)) as [Hlt|Hge].
    + exact (Hearlier i' i ti' ti Hlt Hi' Hi Hflag Hc).
    + assert (Hlt : i < i') by lia.
      rewrite (Hsingle i i' ti ti' Hlt Hi Hi' (close_sym _ _ _ Hc)) in Hflag;
        [discriminate|].
      intros j tj Hj Hjl Hcj.
      exact (Hone j i i' tj ti ti' Hj Hlt Hjl Hi Hi' Hcj (close_sym _ _ _ Hc)).
  - intros (ti & Hi & Hfar).
    destruct (iso_at g i) eqn:Hflag; [reflexivity|]. exfalso.
    destruct (Hsound i ti Hi Hflag) as (i' & ti' & Hne & Hi' & Hc).
    exact (Hfar i' ti' Hne Hi' Hc).
Qed.

(** X9. When no two points are closer than the threshold, every index
    is reported, in the order in which the set is iterated; so an empty
    input gives an empty result and a single point is reported. *)
Theorem X9_all_reported_when_none_close (l : list tuple) (t : number)
    (r : list nat) :
  (forall i i' ti ti', i <> i' -> l !! i = Some ti -> l !! i' = Some ti' ->
                       ~ close t ti ti') ->
  isolated set_order l t = Ok r ->
  r = set_order l /\ r ≡ₚ seq 0 (length l).
Proof.
  intros Hfar Hiso.
  assert (Hr : r = set_order l); [|split; [exact Hr | rewrite Hr; auto]].
  destruct (isolated_filter _ _ _ _ Hiso) as (g & Hload & Hr).
  rewrite Hr. apply filter_all. intros i Hi.
  rewrite set_order_perm in Hi. apply elem_of_seq in Hi as [_ Hi].
  simpl in Hi. destruct (lookup_lt_is_Some_2 l i Hi) as [ti Hti].
  destruct (iso_at g i) eqn:Hflag; [reflexivity|]. exfalso.
  destruct (load_graph_flags _ set_order_perm _ _ _ Hload)
    as (_ & _ & Hsound & _).
  unfold flags_sound in Hsound. rewrite (loaded_names _ _ _ _ Hload) in Hsound.
  destruct (Hsound i ti Hti Hflag) as (i' & ti' & Hne & Hi' & Hc).
  exact (Hfar i i' ti ti' (not_eq_sym Hne) Hti Hi' Hc).
Qed.

(** X10. With a threshold that is zero, negative or not a number, no
    distance is below it, and every index is reported. *)
Theorem X10_all_reported_below_zero (l : list tuple) (t : number)
    (r : list nat) :
  never_below t -> isolated set_order l t = Ok r ->
  r = set_order l /\ r ≡ₚ seq 0 (length l).
Proof.
  intros Ht Hiso.
  assert (Hr : r = set_order l); [|split; [exact Hr | rewrite Hr; auto]].
  destruct (isolated_filter _ _ _ _ Hiso) as (g & Hload & Hr).
  rewrite Hr. apply filter_all. intros i Hi.
  rewrite set_order_perm in Hi. apply elem_of_seq in Hi as [_ Hi].
  simpl in Hi. destruct (lookup_lt_is_Some_2 l i Hi) as [ti Hti].
  destruct (iso_at g i) eqn:Hflag; [reflexivity|]. exfalso.
  destruct (load_graph_flags _ set_order_perm _ _ _ Hload)
    as (_ & _ & Hsound & _).
  unfold flags_sound in Hsound. rewrite (loaded_names _ _ _ _ Hload) in Hsound.
  destruct (Hsound i ti Hti Hflag) as (i' & ti' & Hne & Hi' & Hc).
  apply close_closeb in Hc. rewrite never_below_closeb in Hc by exact Ht.
  discriminate.
Qed.

End Meaning.

(** ** The edges of the loaded graph *)

Lemma visit_edges t new g old g' o n :
  keyed g -> nodes g !! old = Some o -> nodes g !! new = Some n ->
  visit t new g old = Ok g' ->
  (tuple_eqb (name o) (name n) = true /\ edges g' = edges g) \/
  (tuple_eqb (name o) (name n) = false /\
   exists d es, dist_of (name n) (name o) = Ok d /\
                edges g !! new = Some es /\
                edges g' = <[new := es ++ [mkEdge new old d]]> (edges g)).
Proof.
  intros Hk Ho Hn. unfold visit. rewrite Ho, Hn. unfold Node_ne, Node_eq.
  destruct (tuple_eqb (name o) (name n)); simpl.
  - intros [= <-]. auto.
  - rewrite calculate_dist_names.
    destruct (dist_of (name n) (name o)) as [d|]; simpl; [|discriminate].
    unfold add_edge, get_src, get_dest, get_dist. simpl.
    rewrite (proj2 (in_nodes_true g new)) by (eapply lookup_lt_Some, Hn).
    rewrite (proj2 (in_nodes_true g old)) by (eapply lookup_lt_Some, Ho).
    simpl.
    destruct (Hk new) as [es Hes]; [eapply lookup_lt_Some, Hn|].
    rewrite Hes. simpl. rewrite Hn. intros Hres. right. split; [reflexivity|].
    exists d, es. repeat split; auto.
    destruct (get_iso n); [destruct (float_lt d t)|];
      injection Hres as <-; reflexivity.
Qed.

Lemma for_old_nodes_edges t new olds g g' tn :
  keyed g -> names g !! new = Some tn ->
  Forall (fun o => o < length (names g)) olds ->
  (forall old to, old ∈ olds -> old <> new -> names g !! old = Some to ->
                  tuple_eqb to tn = false) ->
  for_old_nodes t new olds g = Ok g' ->
  exists es es',
    edges g !! new = Some es /\ edges g' !! new = Some (es ++ es') /\
    edges_of (names g) olds new tn es' /\
    forall r, r <> new -> edges g' !! r = edges g !! r.
Proof.
  revert g. induction olds as [|old olds IH];
    intros g Hk Hnew Hrange Hdiff Hrun.
  - injection Hrun as <-.
    destruct (Hk new) as [es Hes].
    { apply lookup_lt_Some in Hnew. rewrite names_length in Hnew. exact Hnew. }
    exists es, []. rewrite app_nil_r. repeat split; auto.
  - apply Forall_cons in Hrange as [Hold Hrange]. simpl in Hrun.
    destruct (visit t new g old) as [g1|] eqn:Hv; simpl in Hrun;
      [|discriminate].
    destruct (lookup_lt_is_Some_2 _ _ Hold) as [to Hto].
    destruct (visit_flags t new g old g1 tn to Hk Hto Hnew Hv)
      as (Hk1 & Hnames & _).
    assert (Hon : exists o n, nodes g !! old = Some o /\ name o = to /\
                              nodes g !! new = Some n /\ name n = tn).
    { unfold names in Hto, Hnew. rewrite list_lookup_fmap in Hto, Hnew.
      destruct (nodes g !! old) as [o|]; [|discriminate].
      destruct (nodes g !! new) as [n|]; [|discriminate].
      injection Hto as <-. injection Hnew as <-. eauto 10. }
    destruct Hon as (o & n & Ho & <- & Hn & <-).
    destruct (IH g1) as (es1 & es' & Hes1 & Hes' & [Hdest Hall] & Hother);
      [ exact Hk1 | rewrite Hnames; exact Hnew | rewrite Hnames; exact Hrange
      | | exact Hrun | ].
    { intros old' to' Hin Hne Hl. rewrite Hnames in Hl.
      apply (Hdiff old' to'); auto. right. exact Hin. }
    rewrite Hnames in Hall.
    destruct (visit_edges t new g old g1 o n Hk Ho Hn Hv)
      as [[Heq Hsame]|(Hneq & d & es & Hd & Hes & Hadd)].
    + (* the new node itself: nothing is added *)
      assert (old = new) as ->.
      { destruct (decide (old = new)) as [|Hne]; [assumption|].
        rewrite (Hdiff old (name o)) in Heq; auto; [discriminate | left]. }
      rewrite Hsame in Hes1, Hother.
      exists es1, es'. repeat split; auto.
      rewrite filter_cons_False by (intros H; apply H; reflexivity).
      exact Hdest.
    + assert (Hne : old <> new).
      { intros ->. rewrite Ho in Hn. injection Hn as ->.
        rewrite tuple_eqb_refl in Hneq. discriminate. }
      rewrite Hadd, lookup_insert_eq in Hes1. injection Hes1 as <-.
      exists es, (mkEdge new old d :: es'). repeat split.
      * exact Hes.
      * rewrite Hes'. rewrite <- app_assoc. reflexivity.
      * rewrite filter_cons_True by exact Hne.
        rewrite fmap_cons. simpl. f_equal. exact Hdest.
      * constructor; [|exact Hall]. simpl. split; [reflexivity|].
        exists (name o). split; [apply names_lookup, Ho | exact Hd].
      * intros r Hr. rewrite Hother by exact Hr. rewrite Hadd.
        apply lookup_insert_ne. auto.
Qed.

Lemma edges_of_weaken names names' order j tj es :
  (forall i ti, names !! i = Some ti -> names' !! i = Some ti) ->
  edges_of names order j tj es -> edges_of names' order j tj es.
Proof.
  intros Hsub [Hdest Hall]. split; [exact Hdest|].
  eapply Forall_impl; [exact Hall|].
  intros e (Hsrc & ti & Hti & Hd). split; [exact Hsrc|]. eauto.
Qed.

Section Edges.

Variable set_order : list tuple -> list nat.
Hypothesis set_order_perm : forall l, set_order l ≡ₚ seq 0 (length l).

Lemma load_step_unfold t g index tuple g2 :
  load_step set_order t g index tuple = Ok g2 ->
  let g1 := mkGraph (nodes g ++ [Node_init tuple index])
                    (<[length (nodes g) := []]> (edges g)) in
  has_node g (Node_init tuple index) = false /\
  for_old_nodes t (length (nodes g)) (iter_nodes set_order g1) g1 = Ok g2.
Proof.
  unfold load_step, add_node.
  destruct (has_node g _); simpl; [discriminate|].
  rewrite length_app. simpl.
  replace (Nat.pred (length (nodes g) + 1)) with (length (nodes g)) by lia.
  auto.
Qed.

Lemma load_step_edges t g index tuple g2 :
  flags_inv t g -> edges_inv set_order g ->
  load_step set_order t g index tuple = Ok g2 -> edges_inv set_order g2.
Proof.
  intros (Hk & Hdist & _) Hinv Hstep.
  destruct (load_step_inv _ _ _ _ _ _ Hstep) as (g1' & Hns' & Hk1' & Hfresh & _).
  destruct (load_step_unfold _ _ _ _ _ Hstep) as [_ Hrun].
  set (g1 := mkGraph (nodes g ++ [Node_init tuple index])
                     (<[length (nodes g) := []]> (edges g))) in *.
  set (len := length (nodes g)) in *.
  assert (Hk1 : keyed g1).
  { intros r Hr. unfold g1 in *. simpl in *. rewrite length_app in Hr.
    simpl in Hr. rewrite lookup_insert_is_Some.
    destruct (decide (len = r)); [auto|]. right. split; [auto|].
    apply Hk. fold len. lia. }
  assert (Hn1 : names g1 = names g ++ [tuple]).
  { unfold names, g1. simpl. rewrite fmap_app. reflexivity. }
  assert (Hn2 : names g2 = names g ++ [tuple]).
  { rewrite <- Hn1. eapply for_old_nodes_names, Hrun. }
  assert (Hlen : length (names g) = len) by apply names_length.
  assert (Hnew1 : names g1 !! len = Some tuple).
  { rewrite Hn1, <- Hlen. apply list_lookup_middle. reflexivity. }
  assert (Hrange : Forall (fun o => o < length (names g1))
                     (iter_nodes set_order g1)).
  { rewrite names_length. apply iter_nodes_range, set_order_perm. }
  destruct (for_old_nodes_edges t len _ g1 g2 tuple Hk1 Hnew1 Hrange)
    as (es0 & es' & Hes0 & Hes' & Hof & Hother); [|exact Hrun|].
  { intros old to _ Hne Hto. rewrite Hn1 in Hto.
    apply lookup_app_Some in Hto as [Hto|[Hge Hto]].
    - rewrite tuple_eqb_sym. eauto.
    - destruct (old - length (names g)) eqn:E; [lia | discriminate]. }
  unfold g1 in Hes0. simpl in Hes0. fold len in Hes0.
  rewrite lookup_insert_eq in Hes0. injection Hes0 as <-. simpl in Hes'.
  intros j tj Hj. rewrite Hn2 in Hj |- *.
  apply lookup_app_Some in Hj as [Hj|[Hge Hj]].
  - pose proof (lookup_lt_Some _ _ _ Hj) as Hjl.
    destruct (Hinv j tj Hj) as (es & Hes & Hof').
    exists es. split.
    + rewrite Hother by lia. unfold g1. simpl.
      rewrite lookup_insert_ne by (fold len; lia). exact Hes.
    + rewrite take_app_le by lia.
      eapply edges_of_weaken; [|exact Hof'].
      intros i ti. apply lookup_app_l_Some.
  - destruct (j - length (names g)) eqn:E; [|discriminate].
    injection Hj as <-. assert (j = len) as -> by lia.
    exists es'. split; [exact Hes'|].
    rewrite take_ge by (rewrite length_app; simpl; lia).
    unfold iter_nodes in Hof. fold (names g1) in Hof.
    rewrite Hn1 in Hof. exact Hof.
Qed.

Lemma load_from_edges t index l g g' :
  flags_inv t g -> edges_inv set_order g ->
  load_from set_order t index l g = Ok g' -> edges_inv set_order g'.
Proof.
  revert index g. induction l as [|tuple l IH]; intros index g Hf Hinv; simpl.
  - intros [= <-]. exact Hinv.
  - destruct (load_step _ t g index tuple) as [g1|] eqn:Hstep; simpl;
      [|discriminate].
    apply IH.
    + eapply load_step_flags; eauto.
    + eapply load_step_edges; eauto.
Qed.

Lemma filter_other_seq (j : nat) (o : list nat) :
  o ≡ₚ seq 0 (S j) -> filter (fun i => i <> j) o ≡ₚ seq 0 j.
Proof.
  intros Hp. rewrite Hp, seq_S, filter_app. simpl.
  rewrite filter_all.
  - rewrite filter_cons_False, filter_nil by (intros H; apply H; reflexivity).
    rewrite app_nil_r. reflexivity.
  - intros i Hi. apply elem_of_seq in Hi. lia.
Qed.

(** X11. The graph that [load_graph] builds holds, for every point, one
    edge to each point that comes before it in the input and no other:
    the edges that [get_edges] returns for the point at position [j] all
    start at [j], their destinations are the positions below [j], each
    once, in the order in which the set was iterated when [j] came in,
    and each edge carries the distance [calculate_dist] gives for the
    two.  No edge joins a point to itself or leads to a later point. *)
Theorem X11_edges_to_earlier_points (l : list tuple) (t : number)
    (g : Graph) (j : nat) (tj : tuple) :
  load_graph set_order l t = Ok g -> l !! j = Some tj ->
  exists es,
    get_edges g j = Ok es /\
    dest <$> es = filter (fun i => i <> j) (set_order (take (S j) l)) /\
    dest <$> es ≡ₚ seq 0 j /\
    Forall (fun e =>
              src e = j /\
              exists ti, l !! dest e = Some ti /\
                calculate_dist (Node_init tj j) (Node_init ti (dest e))
                = Ok (dist e)) es.
Proof.
  intros Hload Hj.
  pose proof (loaded_names _ _ _ _ Hload) as Hnames.
  assert (Hinv : edges_inv set_order g).
  { eapply load_from_edges; [apply flags_inv_init | | exact Hload].
    intros i ti Hi. discriminate. }
  unfold edges_inv in Hinv. rewrite Hnames in Hinv.
  destruct (Hinv j tj Hj) as (es & Hes & Hdest & Hall).
  exists es. unfold get_edges. rewrite Hes. repeat split; auto.
  rewrite Hdest. apply filter_other_seq. rewrite set_order_perm.
  rewrite length_take. apply lookup_lt_Some in Hj.
  replace (S j `min` length l) with (S j) by lia. reflexivity.
Qed.

End Edges.

(** ** Which error, and why *)

Section Causes.

Variable set_order : list tuple -> list nat.
Hypothesis set_order_perm : forall l, set_order l ≡ₚ seq 0 (length l).

Lemma load_step_cause t g index tuple e :
  keyed g -> load_step set_order t g index tuple = Err e ->
  exists r to, names g !! r = Some to /\
    ((e = DuplicateNode /\ tuple_eqb tuple to = true) \/
     (e = OverflowError /\ dist_of tuple to = Err OverflowError)).
Proof.
  intros Hk Hstep.
  assert (Hraise : raises (load_step set_order t g index tuple))
    by (eexists; exact Hstep).
  unfold load_step in Hstep.
  destruct (add_node g _) as [g1|e1] eqn:Hadd; simpl in Hstep.
  - destruct (add_node_ok _ _ _ Hadd) as (Hns & Hnew & Hk1).
    assert (e = OverflowError) as ->.
    { eapply for_old_nodes_error;
        [| |apply iter_nodes_range, set_order_perm|exact Hstep].
      - auto.
      - rewrite Hns, length_app. simpl. lia. }
    apply (load_step_raises set_order set_order_perm t g index tuple Hk)
      in Hraise as (r & to & Hr & [Heq|[e He]]).
    + exfalso. assert (has_node g (Node_init tuple index) = true);
        [|congruence]. apply has_node_true. eauto.
    + exists r, to. split; [exact Hr|]. right. split; [reflexivity|].
      rewrite He. f_equal. eapply dist_of_error, He.
  - injection Hstep as <-. apply add_node_error in Hadd as [-> Hdup].
    apply has_node_true in Hdup as (r & to & Hr & Heq).
    exists r, to. auto.
Qed.

Lemma load_from_cause t index l g e :
  keyed g -> load_from set_order t index l g = Err e ->
  exists i j ti tj,
    i < j /\ (names g ++ l) !! i = Some ti /\ (names g ++ l) !! j = Some tj /\
    ((e = DuplicateNode /\ tuple_eqb tj ti = true) \/
     (e = OverflowError /\ dist_of tj ti = Err OverflowError)).
Proof.
  revert index g. induction l as [|tuple l IH]; intros index g Hk; simpl.
  - discriminate.
  - destruct (load_step _ t g index tuple) as [g1|e1] eqn:Hstep; simpl.
    + intros Hrest.
      destruct (load_step_ok _ _ _ _ _ _ Hstep) as [_ Hk1].
      destruct (IH _ _ (Hk1 Hk) Hrest) as (i & j & ti & tj & Hij & Hi & Hj & Hc).
      rewrite (load_step_names _ _ _ _ _ _ Hstep), <- app_assoc in Hi, Hj.
      exists i, j, ti, tj. auto.
    + intros [= <-].
      destruct (load_step_cause _ _ _ _ _ Hk Hstep) as (r & to & Hr & Hc).
      pose proof (lookup_lt_Some _ _ _ Hr) as Hlt.
      exists r, (length (names g)), to, tuple. repeat split; auto.
      * apply lookup_app_l_Some, Hr.
      * apply list_lookup_middle. reflexivity.
Qed.

(** X12. The error tells the cause.  When [isolated] ends with the
    duplicate [ValueError], the input holds a coordinate pair equal to an
    earlier one; when it ends with [OverflowError], the input holds two
    points for which [calculate_dist] overflows. *)
Theorem X12_error_tells_cause (l : list tuple) (t : number) (e : error) :
  isolated set_order l t = Err e ->
  (e = DuplicateNode /\ has_duplicate l) \/
  (e = OverflowError /\
   exists i j ti tj,
     i < j /\ l !! i = Some ti /\ l !! j = Some tj /\
     calculate_dist (Node_init tj j) (Node_init ti i) = Err OverflowError).
Proof.
  unfold isolated.
  destruct (load_graph set_order l t) as [g|e'] eqn:Hload; simpl;
    [discriminate|].
  intros [= <-].
  destruct (load_from_cause _ _ _ _ _ keyed_init Hload)
    as (i & j & ti & tj & Hij & Hi & Hj & [[-> Heq]|[-> Hd]]);
    simpl in Hi, Hj.
  - left. split; [reflexivity|]. exists i, j, ti, tj. auto.
  - right. split; [reflexivity|]. exists i, j, ti, tj. auto.
Qed.

End Causes.

(** ** The float that [math.sqrt] returns *)

Local Open Scope Z_scope.

Lemma shr_1_nonneg mrs : 0 <= shr_m mrs -> 0 <= shr_m (shr_1 mrs).
Proof.
  destruct mrs as [m r s]. simpl.
  destruct m as [|[p|p|]|[p|p|]]; simpl; lia.
Qed.

Lemma iter_pos_nonneg (p : positive) mrs :
  0 <= shr_m mrs -> 0 <= shr_m (SpecFloat.iter_pos shr_1 p mrs).
Proof.
  revert mrs. induction p as [p IH|p IH|]; intros mrs H; simpl.
  - apply IH, IH, shr_1_nonneg, H.
  - apply IH, IH, H.
  - apply shr_1_nonneg, H.
Qed.

Lemma shr_fexp_nonneg m e l :
  0 <= m -> 0 <= shr_m (shr_fexp prec emax m e l).1.
Proof.
  intros Hm. unfold shr_fexp, shr.
  assert (H0 : 0 <= shr_m (shr_record_of_loc m l)).
  { destruct l as [|[| |]]; simpl; exact Hm. }
  destruct (fexp prec emax (Zdigits2 m + e) - e); simpl; auto.
  apply iter_pos_nonneg, H0.
Qed.

Lemma round_nearest_even_nonneg m l : 0 <= m -> 0 <= round_nearest_even m l.
Proof.
  intros Hm. destruct l as [|[| |]]; simpl; try lia.
  destruct (Z.even m); lia.
Qed.

Lemma binary_round_aux_value s m e l :
  0 <= m ->
  match binary_round_aux prec emax s m e l with
  | S754_nan => False
  | S754_zero s' | S754_infinity s' | S754_finite s' _ _ => s' = s
  end.
Proof.
  intros Hm. unfold binary_round_aux.
  pose proof (shr_fexp_nonneg m e l Hm) as H1.
  destruct (shr_fexp prec emax m e l) as [mrs' e']. simpl in H1.
  pose proof (shr_fexp_nonneg _ e' loc_Exact
                (round_nearest_even_nonneg _ (loc_of_shr_record mrs') H1)) as H2.
  destruct (shr_fexp prec emax _ e' loc_Exact) as [mrs'' e'']. simpl in H2.
  destruct (shr_m mrs''); [reflexivity | | lia].
  destruct (e'' <=? emax - prec); reflexivity.
Qed.

Lemma SFsqrt_value (x : float) :
  match x with
  | S754_zero _ | S754_finite false _ _ => True
  | _ => False
  end ->
  match SFsqrt prec emax x with
  | S754_nan => False
  | S754_zero _ => True
  | S754_infinity s | S754_finite s _ _ => s = false
  end.
Proof.
  destruct x as [s|s| |[|] m e]; simpl; try tauto. intros _.
  unfold SFsqrt_core_binary.
  set (m' := match _ with Z.pos _ => _ | 0 => _ | Z.neg _ => _ end).
  assert (Hm' : 0 <= m').
  { unfold m'. destruct (e - 2 * _); try lia. apply Z.shiftl_nonneg. lia. }
  pose proof (Z.sqrtrem_spec m' Hm') as Hs.
  destruct (Z.sqrtrem m') as [q r].
  assert (Hq : 0 <= q) by nia.
  pose proof (binary_round_aux_value false q
    (Z.min (fexp prec emax (Z.div2 (Zdigits2 (Z.pos m) + e + 1))) (Z.div2 e))
    (if r =? 0 then loc_Exact else loc_Inexact (if r <=? q then Lt else Gt)) Hq) as H.
  destruct (binary_round_aux _ _ _ _ _ _); auto.
Qed.

Lemma float_of_int_value (n : Z) (f : float) :
  0 <= n -> float_of_int n = Ok f ->
  match f with
  | S754_zero _ | S754_finite false _ _ => True
  | _ => False
  end.
Proof.
  intros Hn. unfold float_of_int, binary_normalize.
  destruct n as [|m|m]; [intros [= <-]; exact I | | lia].
  unfold binary_round.
  destruct (shl_align m 0 _) as [mz ez].
  pose proof (binary_round_aux_value false (Z.pos mz) ez loc_Exact ltac:(lia)) as H.
  destruct (binary_round_aux _ _ _ _ _ _) as [s|s| |s m' e'];
    try discriminate; intros [= <-]; subst; auto.
Qed.

(** X13. The distance that [calculate_dist] returns is never NaN and
    never negative: it is a zero or a positive float. *)
Theorem X13_distance_not_nan_not_negative (a b : Node) (d : float) :
  calculate_dist a b = Ok d ->
  match d with
  | S754_nan => False
  | S754_zero _ => True
  | S754_infinity s | S754_finite s _ _ => s = false
  end.
Proof.
  rewrite calculate_dist_names. unfold dist_of.
  rewrite math_sqrt_nonneg by apply sqdist_nonneg.
  destruct (float_of_int _) as [f|] eqn:Hf; [|discriminate].
  intros [= <-]. apply SFsqrt_value.
  eapply float_of_int_value, Hf. apply sqdist_nonneg.
Qed.

(** ** Inputs of ordinary size *)

Lemma digits2_pos_bound (m : positive) :
  2 ^ (Z.pos (digits2_pos m) - 1) <= Z.pos m < 2 ^ Z.pos (digits2_pos m).
Proof.
  induction m as [m IH|m IH|]; simpl digits2_pos.
  - rewrite Pos2Z.inj_succ.
    replace (Z.succ (Z.pos (digits2_pos m)) - 1) with (Z.succ (Z.pos (digits2_pos m) - 1)) by lia.
    rewrite !Z.pow_succ_r by lia. lia.
  - rewrite Pos2Z.inj_succ.
    replace (Z.succ (Z.pos (digits2_pos m)) - 1) with (Z.succ (Z.pos (digits2_pos m) - 1)) by lia.
    rewrite !Z.pow_succ_r by lia. lia.
  - simpl. lia.
Qed.

Lemma digits2_pos_iter (m : positive) (k : positive) :
  digits2_pos (Pos.iter xO m k) = (digits2_pos m + k)%positive.
Proof.
  induction k as [|k IH] using Pos.peano_ind.
  - simpl. lia.
  - rewrite Pos.iter_succ. simpl. rewrite IH. lia.
Qed.

Lemma binary_round_aux_exact (mz : positive) (ez : Z) :
  Z.pos (digits2_pos mz) = 53 -> -1074 <= ez <= 971 ->
  binary_round_aux prec emax false (Z.pos mz) ez loc_Exact
  = S754_finite false mz ez.
Proof.
  intros Hd He. unfold binary_round_aux, shr_fexp, fexp, emin, Zdigits2.
  rewrite Hd.
  replace (Z.max (53 + ez - prec) (3 - emax - prec) - ez) with 0
    by (unfold prec, emax; lia).
  cbn [shr shr_record_of_loc loc_of_shr_record shr_m round_nearest_even].
  rewrite Hd.
  replace (Z.max (53 + ez - prec) (3 - emax - prec) - ez) with 0
    by (unfold prec, emax; lia).
  cbn [shr shr_record_of_loc loc_of_shr_record shr_m].
  destruct (Z.leb_spec ez (emax - prec)) as [_|H]; [reflexivity|].
  unfold prec, emax in H. lia.
Qed.

Lemma float_of_int_small (n : Z) :
  0 <= n < 2 ^ 53 -> exists f, float_of_int n = Ok f.
Proof.
  intros [Hn Hlt]. unfold float_of_int.
  destruct n as [|m|m]; [simpl; eauto | | lia].
  unfold binary_normalize, binary_round, shl_align.
  pose proof (digits2_pos_bound m) as [Hlo _].
  assert (Hd : Z.pos (digits2_pos m) <= 53).
  { destruct (Z.le_gt_cases (Z.pos (digits2_pos m)) 53); [assumption|].
    exfalso. assert (2 ^ 53 <= 2 ^ (Z.pos (digits2_pos m) - 1)).
    { apply Z.pow_le_mono_r; lia. } lia. }
  unfold fexp, emin.
  replace (Z.max (Z.pos (digits2_pos m) + 0 - prec) (3 - emax - prec))
    with (Z.pos (digits2_pos m) - 53) by (unfold prec, emax; lia).
  rewrite Z.sub_0_r.
  destruct (Z.pos (digits2_pos m) - 53) as [|p|p] eqn:E; try lia.
  - rewrite binary_round_aux_exact by lia. eauto.
  - rewrite binary_round_aux_exact; [eauto | | lia].
    rewrite digits2_pos_iter. lia.
Qed.

Lemma dist_of_small (a b : tuple) :
  small a -> small b -> exists d, dist_of a b = Ok d.
Proof.
  unfold small. change (2 ^ 25) with 33554432. intros [Ha1 Ha2] [Hb1 Hb2].
  unfold dist_of. rewrite math_sqrt_nonneg by apply sqdist_nonneg.
  destruct (float_of_int_small (sqdist a b)) as [f ->]; [|eauto].
  split; [apply sqdist_nonneg|]. unfold sqdist.
  change (2 ^ 53) with 9007199254740992. rewrite !Z.pow_2_r.
  generalize dependent (int a.1). generalize dependent (int a.2).
  generalize dependent (int b.1). generalize dependent (int b.2).
  intros y2 Hy2 x2 Hx2 y1 Hy1 x1 Hx1.
  assert (-67108864 < x1 - x2 < 67108864) by lia.
  assert (-67108864 < y1 - y2 < 67108864) by lia.
  nia.
Qed.

Local Close Scope Z_scope.

Lemma filter_none (P : nat -> Prop) `{forall i, Decision (P i)} (l : list nat) :
  (forall i, i ∈ l -> ~ P i) -> filter P l = [].
Proof.
  induction l as [|i l IH]; intros Hnone; [reflexivity|].
  rewrite filter_cons_False by (apply Hnone; left).
  apply IH. intros j Hj. apply Hnone. right. exact Hj.
Qed.

Section Ordinary.

Variable set_order : list tuple -> list nat.
Hypothesis set_order_perm : forall l, set_order l ≡ₚ seq 0 (length l).

(** X14. On inputs of ordinary size the only error is the duplicate.
    When the integer parts of all coordinates are below 2^25 in absolute
    value, [calculate_dist] returns a distance for every two points, and
    [isolated] raises if and only if a coordinate pair equals an earlier
    one; without such a pair it returns a result. *)
Theorem X14_small_inputs_fail_on_duplicates_only (l : list tuple)
    (t : number) :
  Forall small l ->
  (forall i j ti tj, l !! i = Some ti -> l !! j = Some tj ->
     exists d, calculate_dist (Node_init tj j) (Node_init ti i) = Ok d) /\
  (raises (isolated set_order l t) <-> has_duplicate l) /\
  (~ has_duplicate l -> exists r, isolated set_order l t = Ok r).
Proof.
  intros Hsmall.
  assert (Hd : forall i j ti tj, l !! i = Some ti -> l !! j = Some tj ->
                 exists d, dist_of tj ti = Ok d).
  { intros i j ti tj Hi Hj. apply dist_of_small.
    - eapply Forall_lookup_1; eauto.
    - eapply Forall_lookup_1; eauto. }
  assert (Hiff : raises (isolated set_order l t) <-> has_duplicate l).
  { rewrite isolated_raises. unfold load_graph.
    rewrite load_from_raises by auto using keyed_init.
    unfold has_duplicate, clash. simpl. split.
    - intros (i & j & ti & tj & Hij & _ & Hi & Hj & [Heq|[e He]]).
      + exists i, j, ti, tj. auto.
      + destruct (Hd i j ti tj Hi Hj) as [d Hdd]. congruence.
    - intros (i & j & ti & tj & Hij & Hi & Hj & Heq).
      exists i, j, ti, tj. repeat split; auto. lia. }
  split; [exact Hd|]. split; [exact Hiff|].
  intros Hnodup. destruct (isolated set_order l t) as [r|e] eqn:Hr; [eauto|].
  exfalso. apply Hnodup, Hiff. eexists. reflexivity.
Qed.

Lemma isolated_two (p q : tuple) (d : float) (t : number) :
  tuple_eqb p q = false -> dist_of q p = Ok d ->
  isolated set_order [p; q] t
  = Ok (if float_lt d t then [] else set_order [p; q]).
Proof.
  intros Hne Hd.
  destruct (load_two set_order set_order_perm p q d t Hne Hd)
    as (g & Hload & Hns).
  destruct (isolated set_order [p; q] t) as [r|e] eqn:Hr.
  2:{ unfold isolated in Hr. rewrite Hload in Hr. discriminate. }
  apply isolated_filter in Hr as (g' & Hload' & ->).
  rewrite Hload in Hload'. injection Hload' as <-. f_equal.
  pose proof (set_order_perm [p; q]) as Hp. simpl in Hp.
  unfold met in Hns. simpl in Hns.
  destruct (float_lt d t).
  - apply filter_none. intros i Hi. rewrite Hp in Hi.
    unfold iso_at. rewrite Hns.
    repeat (apply elem_of_cons in Hi as [->|Hi]; [discriminate|]).
    inversion Hi.
  - apply filter_all. intros i Hi. rewrite Hp in Hi.
    unfold iso_at. rewrite Hns.
    repeat (apply elem_of_cons in Hi as [->|Hi]; [reflexivity|]).
    inversion Hi.
Qed.

(** X15. Truncation makes fractional parts invisible to the distance.
    Two points with different coordinates whose integer parts coincide
    are at distance 0.0, and both are left out of the result for every
    positive threshold, integer or float. *)
Theorem X15_same_integer_parts (p q : tuple) (t : number) :
  tuple_eqb p q = false ->
  int p.1 = int q.1 -> int p.2 = int q.2 ->
  match t with
  | PyInt z => (0 < z)%Z
  | PyFloat (S754_finite false _ _) | PyFloat (S754_infinity false) => True
  | PyFloat _ => False
  end ->
  calculate_dist (Node_init q 1) (Node_init p 0) = Ok (S754_zero false) /\
  isolated set_order [p; q] t = Ok [].
Proof.
  intros Hne H1 H2 Ht.
  assert (Hd : dist_of q p = Ok (S754_zero false)).
  { unfold dist_of, sqdist. rewrite H1, H2, !Z.sub_diag. reflexivity. }
  split; [exact Hd|].
  rewrite (isolated_two p q _ t Hne Hd).
  destruct t as [z|[s|[|]| |[|] m e]]; simpl in *; try tauto.
  destruct (Z.ltb_spec 0 z); [reflexivity | lia].
Qed.

End Ordinary.

(** ** The loaded graph as a whole *)

Lemma edges_of_unique names order j tj es es' :
  edges_of names order j tj es -> edges_of names order j tj es' -> es = es'.
Proof.
  intros [Hdest Hall] [Hdest' Hall']. rewrite <- Hdest' in Hdest. clear Hdest'.
  revert es' Hdest Hall'.
  induction Hall as [|e es (Hsrc & ti & Hti & Hd) _ IH]; intros es' Hdest Hall'.
  - destruct es'; [reflexivity | discriminate].
  - destruct es' as [|e' es']; [discriminate|].
    rewrite !fmap_cons in Hdest. injection Hdest as Hde Hdest.
    apply Forall_cons in Hall' as [(Hsrc' & ti' & Hti' & Hd') Hall'].
    f_equal; [|apply IH; assumption].
    rewrite <- Hde, Hti in Hti'. injection Hti' as <-.
    rewrite Hd in Hd'. injection Hd' as Hdist.
    destruct e, e'. simpl in *. congruence.
Qed.

Lemma load_from_app set_order t index l l' g :
  load_from set_order t index (l ++ l') g
  = load_from set_order t index l g
      ≫= load_from set_order t (index + length l) l'.
Proof.
  revert index g. induction l as [|tuple l IH]; intros index g; simpl.
  - rewrite Nat.add_0_r. reflexivity.
  - destruct (load_step set_order t g index tuple) as [g1|e]; simpl;
      [|reflexivity].
    rewrite IH. replace (S index + length l) with (index + S (length l)) by lia.
    reflexivity.
Qed.

Section Whole.

Variable set_order : list tuple -> list nat.
Hypothesis set_order_perm : forall l, set_order l ≡ₚ seq 0 (length l).

(** X16. The graph that [load_graph] returns holds exactly the input:
    one node per coordinate pair, in input order, named by the pair and
    indexed by its position; the names are pairwise different; and
    [has_node] answers true exactly for nodes named like one of the
    pairs. *)
Theorem X16_loaded_graph_holds_input (l : list tuple) (t : number)
    (g : Graph) :
  load_graph set_order l t = Ok g ->
  name <$> nodes g = l /\
  index <$> nodes g = seq 0 (length l) /\
  (forall i j ti tj, l !! i = Some ti -> l !! j = Some tj ->
                     tuple_eqb ti tj = true -> i = j) /\
  (forall m, has_node g m = true <->
             exists i ti, l !! i = Some ti /\ tuple_eqb (name m) ti = true).
Proof.
  intros Hload.
  pose proof (loaded_names _ _ _ _ Hload) as Hnames.
  destruct (load_graph_ok _ _ _ _ Hload) as [Hf _].
  destruct (load_graph_flags _ set_order_perm _ _ _ Hload) as (_ & Hdist & _).
  unfold distinct_names in Hdist. rewrite Hnames in Hdist.
  split; [exact Hnames|]. split; [|split; [exact Hdist|]].
  - rewrite (fades_indices _ _ Hf). apply fresh_nodes_indices.
  - intros m. rewrite has_node_true, Hnames. reflexivity.
Qed.

(** X17. The threshold decides the flags and nothing else: if
    [load_graph] succeeds for one threshold it succeeds for every other,
    with the same names and indices and the same edges for every
    point. *)
Theorem X17_threshold_changes_flags_only (l : list tuple) (t t' : number)
    (g : Graph) :
  load_graph set_order l t = Ok g ->
  exists g',
    load_graph set_order l t' = Ok g' /\
    name <$> nodes g' = name <$> nodes g /\
    index <$> nodes g' = index <$> nodes g /\
    forall j, j < length l -> get_edges g' j = get_edges g j.
Proof.
  intros Hload.
  destruct (load_graph set_order l t') as [g'|e] eqn:Hload'.
  2:{ exfalso. apply (raises_Ok g). rewrite <- Hload. unfold load_graph in *.
      apply (load_from_raises set_order set_order_perm t 0 l Graph_init
               keyed_init).
      apply (load_from_raises set_order set_order_perm t' 0 l Graph_init
               keyed_init).
      eexists. exact Hload'. }
  exists g'. split; [reflexivity|].
  pose proof (loaded_names _ _ _ _ Hload) as Hn.
  pose proof (loaded_names _ _ _ _ Hload') as Hn'.
  destruct (load_graph_ok _ _ _ _ Hload) as [Hf _].
  destruct (load_graph_ok _ _ _ _ Hload') as [Hf' _].
  split; [unfold names in *; congruence|].
  split; [rewrite (fades_indices _ _ Hf), (fades_indices _ _ Hf'); reflexivity|].
  intros j Hj. destruct (lookup_lt_is_Some_2 l j Hj) as [tj Htj].
  assert (Hinv : edges_inv set_order g).
  { eapply load_from_edges; [exact set_order_perm | apply flags_inv_init
                            | | exact Hload].
    intros i ti Hi. discriminate. }
  assert (Hinv' : edges_inv set_order g').
  { eapply load_from_edges; [exact set_order_perm | apply flags_inv_init
                            | | exact Hload'].
    intros i ti Hi. discriminate. }
  unfold edges_inv in *. rewrite Hn in Hinv. rewrite Hn' in Hinv'.
  destruct (Hinv j tj Htj) as (es & Hes & Hof).
  destruct (Hinv' j tj Htj) as (es' & Hes' & Hof').
  unfold get_edges. rewrite Hes, Hes'. f_equal.
  eapply edges_of_unique; eauto.
Qed.

(** X18. More stars never make an earlier star isolated: when [isolated]
    returns for an input extended by further points, it returns for the
    input itself, and every index of the input that is reported for the
    extension is reported for the input. *)
Theorem X18_extension_keeps_flagged (l l' : list tuple) (t : number)
    (r' : list nat) :
  isolated set_order (l ++ l') t = Ok r' ->
  exists r, isolated set_order l t = Ok r /\
            forall i, i < length l -> i ∈ r' -> i ∈ r.
Proof.
  intros Hiso'.
  destruct (isolated_filter _ _ _ _ Hiso') as (g' & Hload' & _).
  pose proof Hload' as Hsplit. unfold load_graph in Hsplit.
  rewrite load_from_app in Hsplit.
  destruct (load_from set_order t 0 l Graph_init) as [g|] eqn:Hload;
    simpl in Hsplit; [|discriminate].
  assert (Hiso : isolated set_order l t
                 = Ok (collect g (iter_nodes set_order g))).
  { unfold isolated, load_graph. rewrite Hload. reflexivity. }
  eexists. split; [exact Hiso|]. intros i Hi Hin.
  apply (isolated_elem _ set_order_perm _ _ _ _ _ Hiso Hload).
  apply (isolated_elem _ set_order_perm _ _ _ _ _ Hiso' Hload') in Hin.
  apply load_from_ok in Hsplit as [Hf _].
  eapply fades_iso_at; [exact Hf | | exact Hin].
  rewrite (loaded_length _ _ _ _ Hload). exact Hi.
Qed.

End Whole.

(** ** The further properties at concrete inputs *)

Ltac run := vm_compute; reflexivity.

Ltac not_close :=
  match goal with
  | H : close _ _ _ |- _ =>
      apply close_closeb in H; vm_compute in H; discriminate
  end.

Lemma X2_add_node_then_lookup_witness :
  exists g',
    add_node Graph_init (Node_init (pt 0 0) 0) = Ok g' /\
    has_node g' (Node_init (pt 0 0) 0) = true /\
    nodes g' !! 0 = Some (Node_init (pt 0 0) 0) /\
    get_edges g' 0 = Ok [].
Proof.
  destruct (add_node Graph_init (Node_init (pt 0 0) 0)) as [g'|e] eqn:Hadd;
    [|vm_compute in Hadd; discriminate].
  exists g'. split; [reflexivity|].
  destruct (X2_add_node_then_lookup _ _ _ Hadd) as (H1 & H2 & H3 & _).
  auto.
Defined.

Lemma X4_add_edge_effect_witness :
  exists g',
    add_edge two_nodes (mkEdge 1 0 five) = Ok g' /\
    nodes g' = nodes two_nodes /\
    (exists es, get_edges two_nodes 1 = Ok es /\
                get_edges g' 1 = Ok (es ++ [mkEdge 1 0 five])) /\
    (forall r, r <> 1 -> get_edges g' r = get_edges two_nodes r).
Proof.
  destruct (add_edge two_nodes (mkEdge 1 0 five)) as [g'|e] eqn:Hadd;
    [|vm_compute in Hadd; discriminate].
  exists g'. split; [reflexivity|].
  exact (X4_add_edge_effect _ _ _ Hadd).
Defined.

Lemma X6_unreported_has_close_point_witness :
  isolated insertion_order stars3 (PyInt 2) = Ok [1] /\
  stars3 !! 0 = Some (pt 0 0) /\ 0 ∉ [1] /\
  exists i' ti', i' <> 0 /\ stars3 !! i' = Some ti' /\
                 close (PyInt 2) (pt 0 0) ti'.
Proof.
  assert (Hrun : isolated insertion_order stars3 (PyInt 2) = Ok [1]) by run.
  assert (Hout : 0 ∉ [1]).
  { intros H. apply list_elem_of_singleton in H. discriminate. }
  repeat split; auto.
  exact (X6_unreported_has_close_point insertion_order insertion_order_perm
           stars3 (PyInt 2) [1] 0 (pt 0 0) Hrun eq_refl Hout).
Defined.

Lemma X7_reported_far_from_earlier_witness :
  isolated insertion_order stars3 (PyInt 2) = Ok [1] /\
  ~ close (PyInt 2) (pt 10 10) (pt 0 0).
Proof.
  assert (Hrun : isolated insertion_order stars3 (PyInt 2) = Ok [1]) by run.
  split; [exact Hrun|].
  refine (X7_reported_far_from_earlier insertion_order insertion_order_perm
            stars3 (PyInt 2) [1] 1 0 (pt 10 10) (pt 0 0) Hrun _ _ eq_refl
            eq_refl).
  - apply list_elem_of_singleton. reflexivity.
  - lia.
Defined.

Lemma X8_exact_with_single_close_earlier_witness :
  isolated insertion_order [pt 0 0; pt 3 4] (PyInt 6) = Ok [] /\
  forall i, i ∈ [] <->
    exists ti, [pt 0 0; pt 3 4] !! i = Some ti /\
      forall i' ti', i' <> i -> [pt 0 0; pt 3 4] !! i' = Some ti' ->
                     ~ close (PyInt 6) ti ti'.
Proof.
  assert (Hrun : isolated insertion_order [pt 0 0; pt 3 4] (PyInt 6) = Ok [])
    by run.
  split; [exact Hrun|].
  refine (X8_exact_with_single_close_earlier insertion_order
            insertion_order_perm [pt 0 0; pt 3 4] (PyInt 6) [] _ Hrun).
  intros j j' k tj tj' tk Hj Hj' _ _ Hk _ _.
  apply lookup_lt_Some in Hk. simpl in Hk. lia.
Defined.

Lemma X9_all_reported_when_none_close_witness :
  isolated insertion_order [pt 0 0; pt 10 10] (PyInt 2) = Ok [0; 1] /\
  [0; 1] = insertion_order [pt 0 0; pt 10 10] /\ [0; 1] ≡ₚ seq 0 2.
Proof.
  assert (Hrun : isolated insertion_order [pt 0 0; pt 10 10] (PyInt 2)
                 = Ok [0; 1]) by run.
  split; [exact Hrun|].
  refine (X9_all_reported_when_none_close insertion_order insertion_order_perm
            [pt 0 0; pt 10 10] (PyInt 2) [0; 1] _ Hrun).
  intros i i' ti ti' Hne Hi Hi' Hc.
  destruct i as [|[|i]]; destruct i' as [|[|i']]; try discriminate;
    try congruence; injection Hi as <-; injection Hi' as <-; not_close.
Defined.

Lemma X10_all_reported_below_zero_witness :
  never_below (PyInt 0) /\
  isolated insertion_order [pt 0 0; pt 0 1] (PyInt 0) = Ok [0; 1] /\
  [0; 1] = insertion_order [pt 0 0; pt 0 1] /\ [0; 1] ≡ₚ seq 0 2.
Proof.
  assert (Ht : never_below (PyInt 0)) by (simpl; lia).
  assert (Hrun : isolated insertion_order [pt 0 0; pt 0 1] (PyInt 0)
                 = Ok [0; 1]) by run.
  split; [exact Ht|]. split; [exact Hrun|].
  exact (X10_all_reported_below_zero insertion_order insertion_order_perm
           [pt 0 0; pt 0 1] (PyInt 0) [0; 1] Ht Hrun).
Defined.

Lemma X11_edges_to_earlier_points_witness :
  exists g es,
    load_graph insertion_order stars3 (PyInt 2) = Ok g /\
    get_edges g 2 = Ok es /\ (dest <$> es) ≡ₚ seq 0 2.
Proof.
  destruct (load_graph insertion_order stars3 (PyInt 2)) as [g|e] eqn:Hload;
    [|vm_compute in Hload; discriminate].
  destruct (X11_edges_to_earlier_points insertion_order insertion_order_perm
              stars3 (PyInt 2) g 2 (pt 0 1) Hload eq_refl)
    as (es & Hes & _ & Hperm & _).
  exists g, es. auto.
Defined.

Lemma X12_error_tells_cause_witness :
  isolated insertion_order [pt 1 1; pt 1 1] (PyInt 2) = Err DuplicateNode /\
  has_duplicate [pt 1 1; pt 1 1].
Proof.
  assert (Hrun : isolated insertion_order [pt 1 1; pt 1 1] (PyInt 2)
                 = Err DuplicateNode) by run.
  split; [exact Hrun|].
  destruct (X12_error_tells_cause insertion_order insertion_order_perm
              [pt 1 1; pt 1 1] (PyInt 2) DuplicateNode Hrun)
    as [[_ H]|[H _]]; [exact H | discriminate].
Defined.

Lemma X13_distance_not_nan_not_negative_witness :
  calculate_dist (Node_init (pt 3 4) 1) (Node_init (pt 0 0) 0) = Ok five /\
  false = false.
Proof.
  assert (Hd : calculate_dist (Node_init (pt 3 4) 1) (Node_init (pt 0 0) 0)
               = Ok five) by run.
  split; [exact Hd|].
  exact (X13_distance_not_nan_not_negative _ _ five Hd).
Defined.

Lemma X14_small_inputs_fail_on_duplicates_only_witness :
  Forall small [pt 0 0; pt 3 4] /\
  (raises (isolated insertion_order [pt 0 0; pt 3 4] (PyInt 2))
   <-> has_duplicate [pt 0 0; pt 3 4]).
Proof.
  assert (Hs : Forall small [pt 0 0; pt 3 4]).
  { repeat constructor. }
  split; [exact Hs|].
  exact (proj1 (proj2 (X14_small_inputs_fail_on_duplicates_only
                         insertion_order insertion_order_perm
                         [pt 0 0; pt 3 4] (PyInt 2) Hs))).
Defined.

Lemma X15_same_integer_parts_witness :
  tuple_eqb (1 # 5, 0 # 1)%Q (7 # 10, 0 # 1)%Q = false /\
  isolated insertion_order [(1 # 5, 0 # 1)%Q; (7 # 10, 0 # 1)%Q] (PyInt 1)
  = Ok [].
Proof.
  assert (Hne : tuple_eqb (1 # 5, 0 # 1)%Q (7 # 10, 0 # 1)%Q = false)
    by reflexivity.
  split; [exact Hne|].
  refine (proj2 (X15_same_integer_parts insertion_order insertion_order_perm
                   (1 # 5, 0 # 1)%Q (7 # 10, 0 # 1)%Q (PyInt 1)
                   Hne eq_refl eq_refl _)).
  simpl. lia.
Defined.

Lemma X16_loaded_graph_holds_input_witness :
  exists g,
    load_graph insertion_order stars3 (PyInt 2) = Ok g /\
    name <$> nodes g = stars3 /\ index <$> nodes g = seq 0 3.
Proof.
  destruct (load_graph insertion_order stars3 (PyInt 2)) as [g|e] eqn:Hload;
    [|vm_compute in Hload; discriminate].
  destruct (X16_loaded_graph_holds_input insertion_order insertion_order_perm
              stars3 (PyInt 2) g Hload) as (Hn & Hi & _).
  exists g. auto.
Defined.

Lemma X17_threshold_changes_flags_only_witness :
  exists g g',
    load_graph insertion_order stars3 (PyInt 2) = Ok g /\
    load_graph insertion_order stars3 (PyInt 20) = Ok g' /\
    forall j, j < 3 -> get_edges g' j = get_edges g j.
Proof.
  destruct (load_graph insertion_order stars3 (PyInt 2)) as [g|e] eqn:Hload;
    [|vm_compute in Hload; discriminate].
  destruct (X17_threshold_changes_flags_only insertion_order
              insertion_order_perm stars3 (PyInt 2) (PyInt 20) g Hload)
    as (g' & Hload' & _ & _ & Hedges).
  exists g, g'. auto.
Defined.

Lemma X18_extension_keeps_flagged_witness :
  isolated insertion_order ([pt 0 0; pt 10 10] ++ [pt 0 1]) (PyInt 2)
  = Ok [1] /\
  exists r, isolated insertion_order [pt 0 0; pt 10 10] (PyInt 2) = Ok r /\
            forall i, i < 2 -> i ∈ [1] -> i ∈ r.
Proof.
  assert (Hrun : isolated insertion_order ([pt 0 0; pt 10 10] ++ [pt 0 1])
                   (PyInt 2) = Ok [1]) by run.
  split; [exact Hrun|].
  exact (X18_extension_keeps_flagged insertion_order insertion_order_perm
           [pt 0 0; pt 10 10] [pt 0 1] (PyInt 2) [1] Hrun).
Defined.
